(** * python-audio-collator: a shallow embedding of [collator.py]

    The development follows the source file top to bottom.  The Python
    library calls the script makes ([str.split], [str.replace],
    [os.path.join], [os.path.basename], [re.match], [hashlib.sha1],
    [open]/[read], [os.listdir], [os.path.isdir], [os.path.isfile],
    [eyed3.load]) are modelled first, each in a module of its own; the
    class [CollatorFile] and the function [build_library] come after
    them and are translated line by line. *)

From Stdlib Require Import List Arith ZArith Lia Bool Ascii String Strings.Byte.
From Stdlib Require Import DecimalString.
Import ListNotations.

Local Open Scope string_scope.
Local Open Scope list_scope.

(** ** Exceptions and results

    A Python call either returns a value or raises.  The exceptions the
    script can meet are enumerated; [OSError] carries the path. *)

Inductive exn : Type :=
| OSError (path : string)
| IndexError
| AttributeError
| RecursionError.

Inductive result (A : Type) : Type :=
| Ok (a : A)
| Raise (e : exn).

Arguments Ok {A} a.
Arguments Raise {A} e.

Definition is_ok {A} (r : result A) : bool :=
  match r with Ok _ => true | Raise _ => false end.

(** ** Python string primitives *)

Module PyStr.

Definition slash : ascii := "/"%char.
Definition backslash : ascii := "\"%char.
Definition newline : ascii := ascii_of_nat 10.

(** [s.split(sep)] for a one-character separator: one more segment
    than there are separators, empty segments kept. *)
Fixpoint split (sep : ascii) (s : string) : list string :=
  match s with
  | EmptyString => [EmptyString]
  | String c s' =>
      if Ascii.eqb c sep then EmptyString :: split sep s'
      else match split sep s' with
           | [] => [String c EmptyString]
           | seg :: segs => String c seg :: segs
           end
  end.

(** [sep.join(segs)]. *)
Fixpoint join (sep : ascii) (segs : list string) : string :=
  match segs with
  | [] => EmptyString
  | [seg] => seg
  | seg :: rest => seg ++ String sep (join sep rest)
  end.

(** [s.replace(old, new)] for one-character [old] and [new]. *)
Fixpoint replace (old new : ascii) (s : string) : string :=
  match s with
  | EmptyString => EmptyString
  | String c s' =>
      String (if Ascii.eqb c old then new else c) (replace old new s')
  end.

(** [c in s]. *)
Fixpoint contains (c : ascii) (s : string) : bool :=
  match s with
  | EmptyString => false
  | String d s' => Ascii.eqb d c || contains c s'
  end.

Definition startswith_char (c : ascii) (s : string) : bool :=
  match s with
  | String d _ => Ascii.eqb d c
  | EmptyString => false
  end.

Fixpoint endswith_char (c : ascii) (s : string) : bool :=
  match s with
  | EmptyString => false
  | String d EmptyString => Ascii.eqb d c
  | String _ s' => endswith_char c s'
  end.

(** ASCII lower-casing of one character, and of a string. *)
Definition lower_char (c : ascii) : ascii :=
  let n := nat_of_ascii c in
  if (65 <=? n)%nat && (n <=? 90)%nat then ascii_of_nat (n + 32) else c.

Fixpoint lower (s : string) : string :=
  match s with
  | EmptyString => EmptyString
  | String c s' => String (lower_char c) (lower s')
  end.

(** [l[i]] for a non-negative literal index. *)
Definition getitem {A} (l : list A) (i : nat) : result A :=
  match nth_error l i with
  | Some x => Ok x
  | None => Raise IndexError
  end.

End PyStr.

(** ** [os.path] (the POSIX flavour, [posixpath]) *)

Module OsPath.
Import PyStr.

(** [os.path.join(a, b)]: an absolute [b] replaces [a]; otherwise the
    two are glued with one separator unless [a] is empty or already
    ends with one. *)
Definition join (a b : string) : string :=
  if startswith_char slash b then b
  else if (String.eqb a EmptyString || endswith_char slash a)%bool then a ++ b
  else a ++ String slash b.

(** [os.path.basename(p)]: what follows the last separator. *)
Fixpoint basename (p : string) : string :=
  match p with
  | EmptyString => EmptyString
  | String c p' =>
      if contains slash p then basename p' else p
  end.

End OsPath.

(** ** [re]: the fragment of regular expressions the script compiles *)

Module Re.
Import PyStr.

Inductive regex : Type :=
| Any                       (* [.]  : any character but a newline *)
| Lit (c : ascii)           (* a literal character *)
| Cat (r1 r2 : regex)       (* concatenation *)
| Alt (r1 r2 : regex)       (* [r1|r2] *)
| Plus (r : regex)          (* greedy [r+] *)
| Eol.                      (* [$]  : at the end, or before a final newline *)

Section Matcher.
(** The [re.IGNORECASE] flag. *)
Variable ignorecase : bool.

Definition char_eq (p c : ascii) : bool :=
  if ignorecase then Ascii.eqb (lower_char p) (lower_char c)
  else Ascii.eqb p c.

(** One or more rounds of [step], longest first; every round of the
    bodies used here consumes a character, so [fuel] = the length
    of the subject is enough. *)
Fixpoint plus_iter (step : string -> list string) (fuel : nat) (s : string)
  : list string :=
  flat_map
    (fun s1 =>
       match fuel with
       | O => []
       | S n => plus_iter step n s1
       end ++ [s1])
    (step s).

(** [ends r s]: what is left of [s] after each way [r] can match a
    prefix of it, in the order the backtracking matcher tries them. *)
Fixpoint ends (r : regex) (s : string) : list string :=
  match r with
  | Any =>
      match s with
      | String c s' => if Ascii.eqb c newline then [] else [s']
      | EmptyString => []
      end
  | Lit p =>
      match s with
      | String c s' => if char_eq p c then [s'] else []
      | EmptyString => []
      end
  | Cat r1 r2 => flat_map (ends r2) (ends r1 s)
  | Alt r1 r2 => ends r1 s ++ ends r2 s
  | Plus r' => plus_iter (ends r') (String.length s) s
  | Eol =>
      match s with
      | EmptyString => [s]
      | String c EmptyString => if Ascii.eqb c newline then [s] else []
      | String _ _ => []
      end
  end.

(** [pattern.match(s)]: anchored at the start of [s]; the match
    object is represented by the unmatched rest, [None] is no match. *)
Definition re_match (r : regex) (s : string) : option string :=
  hd_error (ends r s).

End Matcher.

End Re.

(** ** [hashlib.sha1] (FIPS 180-4), with its incremental interface *)

Module Sha1.
Local Open Scope Z_scope.

Definition wrap32 (x : Z) : Z := x mod 2 ^ 32.
Definition add32 (x y : Z) : Z := wrap32 (x + y).
Definition not32 (x : Z) : Z := Z.lxor x 0xFFFFFFFF.
Definition rotl32 (n x : Z) : Z :=
  wrap32 (Z.lor (Z.shiftl x n) (Z.shiftr x (32 - n))).

Definition state : Type := (Z * Z * Z * Z * Z)%type.

Definition initial_state : state :=
  (0x67452301, 0xEFCDAB89, 0x98BADCFE, 0x10325476, 0xC3D2E1F0).

Definition f_t (t : nat) (b c d : Z) : Z :=
  if (t <? 20)%nat then Z.lor (Z.land b c) (Z.land (not32 b) d)
  else if (t <? 40)%nat then Z.lxor (Z.lxor b c) d
  else if (t <? 60)%nat then
    Z.lor (Z.lor (Z.land b c) (Z.land b d)) (Z.land c d)
  else Z.lxor (Z.lxor b c) d.

Definition k_t (t : nat) : Z :=
  if (t <? 20)%nat then 0x5A827999
  else if (t <? 40)%nat then 0x6ED9EBA1
  else if (t <? 60)%nat then 0x8F1BBCDC
  else 0xCA62C1D6.

Definition byte_val (b : byte) : Z := Z.of_N (Byte.to_N b).

(** Big-endian 32-bit words of a block. *)
Fixpoint words_of (bs : list byte) : list Z :=
  match bs with
  | b0 :: b1 :: b2 :: b3 :: rest =>
      (Z.shiftl (byte_val b0) 24 + Z.shiftl (byte_val b1) 16
       + Z.shiftl (byte_val b2) 8 + byte_val b3) :: words_of rest
  | _ => []
  end.

(** The message schedule, newest word first while it grows. *)
Fixpoint schedule (n : nat) (rev_w : list Z) : list Z :=
  match n with
  | O => rev_w
  | S n' =>
      let w :=
        rotl32 1 (Z.lxor (Z.lxor (nth 2 rev_w 0) (nth 7 rev_w 0))
                         (Z.lxor (nth 13 rev_w 0) (nth 15 rev_w 0))) in
      schedule n' (w :: rev_w)
  end.

Definition round (st : state) (tw : nat * Z) : state :=
  let '(a, b, c, d, e) := st in
  let '(t, w) := tw in
  let temp :=
    add32 (add32 (add32 (add32 (rotl32 5 a) (f_t t b c d)) e) (k_t t)) w in
  (temp, a, rotl32 30 b, c, d).

(** The compression function on one 64-byte block. *)
Definition compress (h : state) (block : list byte) : state :=
  let w := rev (schedule 64 (rev (words_of block))) in
  let '(a, b, c, d, e) := fold_left round (combine (seq 0 80) w) h in
  let '(h0, h1, h2, h3, h4) := h in
  (add32 h0 a, add32 h1 b, add32 h2 c, add32 h3 d, add32 h4 e).

(** Whole blocks of [l] go through [compress]; fewer than 64 bytes
    stay behind.  [fuel] bounds the number of blocks. *)
Fixpoint absorb (fuel : nat) (h : state) (l : list byte)
  : state * list byte :=
  match fuel with
  | O => (h, l)
  | S n =>
      if (List.length l <? 64)%nat then (h, l)
      else absorb n (compress h (firstn 64 l)) (skipn 64 l)
  end.

(** The hash object: chaining value, bytes not yet compressed, and
    the number of bytes fed so far. *)
Record hasher : Type := {
  chain : state;
  pending : list byte;
  count : Z
}.

(** [hashlib.sha1()]. *)
Definition new : hasher :=
  {| chain := initial_state; pending := []; count := 0 |}.

(** [hasher.update(buf)]. *)
Definition update (hs : hasher) (buf : list byte) : hasher :=
  let l := pending hs ++ buf in
  let '(h, rest) := absorb (List.length l) (chain hs) l in
  {| chain := h; pending := rest;
     count := count hs + Z.of_nat (List.length buf) |}.

Definition byte_of_Z (z : Z) : byte :=
  match Byte.of_N (Z.to_N (z mod 256)) with
  | Some b => b
  | None => x00
  end.

(** The 64-bit big-endian bit count that ends the padding. *)
Definition length_bytes (nbytes : Z) : list byte :=
  let bits := (nbytes * 8) mod 2 ^ 64 in
  map (fun i => byte_of_Z (Z.shiftr bits (8 * (7 - Z.of_nat i)))) (seq 0 8).

Definition padding (hs : hasher) : list byte :=
  let used := (List.length (pending hs) + 1)%nat in
  let zeros := ((64 + 56 - used mod 64) mod 64)%nat in
  x80 :: repeat x00 zeros ++ length_bytes (count hs).

Definition hex_digit (z : Z) : ascii :=
  match String.get (Z.to_nat z) "0123456789abcdef" with
  | Some c => c
  | None => "0"%char
  end.

Fixpoint hex_word (digits : nat) (w : Z) (acc : string) : string :=
  match digits with
  | O => acc
  | S n => hex_word n (Z.shiftr w 4) (String (hex_digit (Z.land w 15)) acc)
  end.

(** [hasher.hexdigest()]: pads a copy of the state and prints the
    chaining value as 40 lower-case hexadecimal digits. *)
Definition hexdigest (hs : hasher) : string :=
  let l := pending hs ++ padding hs in
  let '(h0, h1, h2, h3, h4) := fst (absorb (List.length l) (chain hs) l) in
  hex_word 8 h0 (hex_word 8 h1 (hex_word 8 h2 (hex_word 8 h3
    (hex_word 8 h4 EmptyString)))).

(** [hashlib.sha1(data).hexdigest()]: the digest of [data] fed at once. *)
Definition sha1_hex (data : list byte) : string :=
  hexdigest (update new data).

End Sha1.

(** ** The file system and the tag reader, as the script sees them *)

(** What [eyed3.load] hands back: an audio file object whose [tag] may
    be [None], a tag whose fields may each be [None]. *)
Record Tag : Type := {
  title : option string;
  artist : option string;
  album : option string
}.

Record AudioFile : Type := {
  tag : option Tag
}.

(** The environment of one run.  Every field answers one library call
    for a given path; a call that raises answers [Raise].
    [eyed3_load] answers [Ok None] for a file it does not recognise. *)
Record FS : Type := {
  listdir : string -> result (list string);
  isdir : string -> bool;
  isfile : string -> bool;
  open_rb : string -> result (list byte);
  eyed3_load : string -> result (option AudioFile)
}.

(** The library calls a run performs, in order. *)
Inductive event : Type :=
| EListdir (path : string)
| EIsdir (path : string)
| EIsfile (path : string)
| EOpen (path : string)
| ELoad (path : string).

(** A computation: the calls it made, and its value or the exception
    that ended it. *)
Definition io (A : Type) : Type := (list event * result A)%type.

Definition ret {A} (a : A) : io A := ([], Ok a).

Definition throw {A} (e : exn) : io A := ([], Raise e).

Definition bind {A B} (m : io A) (f : A -> io B) : io B :=
  match m with
  | (t, Ok a) => let '(t', r) := f a in (t ++ t', r)
  | (t, Raise e) => (t, Raise e)
  end.

Definition trace_of {A} (m : io A) : list event := fst m.
Definition result_of {A} (m : io A) : result A := snd m.

Declare Scope io_scope.
Delimit Scope io_scope with io.
Notation "x <- m ;; k" := (bind m (fun x => k))
  (at level 61, m at next level, right associativity) : io_scope.
Notation "' pat <- m ;; k" := (bind m (fun x => match x with pat => k end))
  (at level 61, pat pattern, m at next level, right associativity) : io_scope.
Local Open Scope io_scope.

Definition os_listdir (fs : FS) (path : string) : io (list string) :=
  ([EListdir path], listdir fs path).

Definition os_path_isdir (fs : FS) (path : string) : io bool :=
  ([EIsdir path], Ok (isdir fs path)).

Definition os_path_isfile (fs : FS) (path : string) : io bool :=
  ([EIsfile path], Ok (isfile fs path)).

Definition eyed3load (fs : FS) (path : string) : io (option AudioFile) :=
  ([ELoad path], eyed3_load fs path).

(** An open binary file: the bytes not yet read. *)
Definition file_object : Type := list byte.

Definition open (fs : FS) (path : string) : io file_object :=
  ([EOpen path], open_rb fs path).

(** [afile.read(n)]: at most [n] bytes, all that is left when [n] is
    negative; the file object moves past them. *)
Definition read (n : Z) (afile : file_object) : list byte * file_object :=
  if (n <? 0)%Z then (afile, [])
  else (firstn (Z.to_nat n) afile, skipn (Z.to_nat n) afile).

(** ** [class CollatorFile] *)

Record CollatorFile : Type := {
  fname : string;
  hash : string;
  audiofile : option AudioFile
}.

Definition BLOCKSIZE : Z := 65536.

(** The [while len(buf) > 0] loop of [generate_hash]; [fuel] bounds the
    iterations, each of which takes at least one byte off the file. *)
Fixpoint hash_loop (blocksize : Z) (fuel : nat) (hasher : Sha1.hasher)
  (buf : list byte) (afile : file_object) : Sha1.hasher :=
  match fuel with
  | O => hasher
  | S n =>
      if (0 <? List.length buf)%nat then
        let hasher := Sha1.update hasher buf in
        let '(buf, afile) := read blocksize afile in
        hash_loop blocksize n hasher buf afile
      else hasher
  end.

(** [generate_hash] with the block size as a parameter. *)
Definition generate_hash_blocks (blocksize : Z) (fs : FS) (fname : string)
  : io string :=
  let hasher := Sha1.new in
  afile <- open fs fname ;;
  let fuel := S (List.length afile) in
  let '(buf, afile) := read blocksize afile in
  let hasher := hash_loop blocksize fuel hasher buf afile in
  ret (Sha1.hexdigest hasher).

Definition generate_hash (fs : FS) (fname : string) : io string :=
  generate_hash_blocks BLOCKSIZE fs fname.

(** [CollatorFile.__init__]. *)
Definition CollatorFile_init (fs : FS) (fname : string) : io CollatorFile :=
  h <- generate_hash fs fname ;;
  a <- eyed3load fs fname ;;
  ret {| fname := fname; hash := h; audiofile := a |}.

(** Attribute look-ups on values that may be [None]. *)
Definition attr_tag (a : option AudioFile) : result (option Tag) :=
  match a with
  | Some af => Ok (tag af)
  | None => Raise AttributeError
  end.

Definition attr_of_tag (field : Tag -> option string) (t : option Tag)
  : result (option string) :=
  match t with
  | Some tg => Ok (field tg)
  | None => Raise AttributeError
  end.

(** The three tag properties: the look-up chain
    [self.audiofile.tag.<field>] inside [try ... except AttributeError:
    pass], with [None] as the value set beforehand. *)
Definition title_tag (self : CollatorFile) : result (option string) :=
  let title_tag := None in
  match
    match attr_tag (audiofile self) with
    | Ok t => attr_of_tag title t
    | Raise e => Raise e
    end
  with
  | Ok v => Ok v
  | Raise AttributeError => Ok title_tag
  | Raise e => Raise e
  end.

Definition album_tag (self : CollatorFile) : result (option string) :=
  let album_tag := None in
  match
    match attr_tag (audiofile self) with
    | Ok t => attr_of_tag album t
    | Raise e => Raise e
    end
  with
  | Ok v => Ok v
  | Raise AttributeError => Ok album_tag
  | Raise e => Raise e
  end.

Definition artist_tag (self : CollatorFile) : result (option string) :=
  let artist_tag := None in
  match
    match attr_tag (audiofile self) with
    | Ok t => attr_of_tag artist t
    | Raise e => Raise e
    end
  with
  | Ok v => Ok v
  | Raise AttributeError => Ok artist_tag
  | Raise e => Raise e
  end.

(** [".+\.(mp3|m4a)$"]. *)
Definition iaf_re : Re.regex :=
  Re.Cat (Re.Plus Re.Any)
    (Re.Cat (Re.Lit ".")
       (Re.Cat
          (Re.Alt (Re.Cat (Re.Lit "m") (Re.Cat (Re.Lit "p") (Re.Lit "3")))
                  (Re.Cat (Re.Lit "m") (Re.Cat (Re.Lit "4") (Re.Lit "a"))))
          Re.Eol)).

Definition is_audio_file (self : CollatorFile) : bool :=
  let ret := false in
  let mo := Re.re_match true iaf_re (OsPath.basename (fname self)) in
  match mo with
  | Some _ => true
  | None => ret
  end.

Definition path_elements (self : CollatorFile) : list string :=
  PyStr.split PyStr.slash (fname self).

Definition path_artist (self : CollatorFile) : result string :=
  PyStr.getitem (path_elements self) 4.

Definition path_album (self : CollatorFile) : result string :=
  PyStr.getitem (path_elements self) 5.

(** ** [build_library] *)

Definition library_t : Type := (list CollatorFile * list string)%type.

(** The body of [for f in found], on the two lists built so far;
    [recurse] is the recursive call. *)
Definition scan_entry (fs : FS) (recurse : string -> io library_t)
  (path : string) (acc : library_t) (f : string) : io library_t :=
  let '(library, unknowns) := acc in
  let fpath := PyStr.replace PyStr.backslash PyStr.slash (OsPath.join path f) in
  d <- os_path_isdir fs fpath ;;
  if d : bool then
    '(l, u) <- recurse fpath ;;
    ret (library ++ l, unknowns ++ u)
  else
    r <- os_path_isfile fs fpath ;;
    if r : bool then
      ncf <- CollatorFile_init fs fpath ;;
      if is_audio_file ncf then ret (library ++ [ncf], unknowns)
      else ret (library, unknowns ++ [fpath])
    else ret (library, unknowns ++ [fpath]).

(** The [for] loop. *)
Fixpoint scan_entries (fs : FS) (recurse : string -> io library_t)
  (path : string) (found : list string) (acc : library_t) : io library_t :=
  match found with
  | [] => ret acc
  | f :: rest =>
      acc' <- scan_entry fs recurse path acc f ;;
      scan_entries fs recurse path rest acc'
  end.

(** [build_library(path)].  [depth] is the number of nested calls the
    interpreter still allows; going past it raises [RecursionError].
    The module-level [debug] is [False], so nothing is printed. *)
Fixpoint build_library (fs : FS) (depth : nat) (path : string) : io library_t :=
  match depth with
  | O => throw RecursionError
  | S d =>
      let library := [] in
      let unknowns := [] in
      found <- os_listdir fs path ;;
      scan_entries fs (build_library fs d) path found (library, unknowns)
  end.

(** ** [CollatorFile.__str__] *)

(** Sequencing of calls that may raise, outside the file system. *)
Definition rbind {A B} (r : result A) (f : A -> result B) : result B :=
  match r with
  | Ok a => f a
  | Raise e => Raise e
  end.

Notation "'try' x <- r ;; k" := (rbind r (fun x => k))
  (at level 61, x name, r at next level, right associativity) : io_scope.

(** ["{0}".format(v)] for a value that is a string or [None]. *)
Definition format_opt (v : option string) : string :=
  match v with
  | Some s => s
  | None => "None"
  end.

(** ["{0}".format(n)] for a length. *)
Definition format_nat (n : nat) : string :=
  NilEmpty.string_of_uint (Nat.to_uint n).

(** The arguments of [format] are evaluated from left to right, so the
    path artist is read before the path album, and both before any tag. *)
Definition CollatorFile_str (self : CollatorFile) : result string :=
  let title := OsPath.basename (fname self) in
  try pa <- path_artist self ;;
  try pb <- path_album self ;;
  let ret :=
    ("Title: " ++ title ++ ", Artist: " ++ pa ++ ", Album: " ++ pb)%string in
  try tt <- title_tag self ;;
  let ret :=
    (ret ++ String PyStr.newline "Title Tag: " ++ format_opt tt)%string in
  try bt <- album_tag self ;;
  let ret :=
    (ret ++ String PyStr.newline "Album Tag: " ++ format_opt bt)%string in
  try at_ <- artist_tag self ;;
  let ret :=
    (ret ++ String PyStr.newline "Artist Tag: " ++ format_opt at_)%string in
  Ok ret.

(** ** The script ([if __name__ == '__main__']) *)

Definition ROOT : string := "/home/ec2-user/dev.music".

(** The module-level [debug = False]. *)
Definition debug : bool := false.

(** What a run writes: the argument of each [print], in order, and how
    the run ends. *)
Definition printed (A : Type) : Type := (list string * result A)%type.

(** [for t in library: print(t)]: [print] calls [__str__]; the loop
    stops at the first descriptor whose [__str__] raises. *)
Fixpoint print_library (library : list CollatorFile) : printed unit :=
  match library with
  | [] => ([], Ok tt)
  | t :: rest =>
      match CollatorFile_str t with
      | Raise e => ([], Raise e)
      | Ok text => let '(out, r) := print_library rest in (text :: out, r)
      end
  end.

(** The three lines that open the report.  [elapsed] is the text of
    [stop - start], a difference of two clock readings. *)
Definition report_header (elapsed : string) (library : list CollatorFile)
  (unknowns : list string) : list string :=
  [("Processed library in " ++ elapsed ++ " seconds")%string;
   ("Library consists of " ++ format_nat (List.length library)
    ++ " discovered and identified audio files")%string;
   ("Found " ++ format_nat (List.length unknowns)
    ++ " unknown or unidentifiable files")%string].

(** The block under [if unknowns and debug]. *)
Definition unknown_files_block (unknowns : list string) : list string :=
  String PyStr.newline (String PyStr.newline "Unknown Files")
  :: "-------------"
  :: map (fun u => ("  " ++ u)%string) unknowns.

Definition main (fs : FS) (depth : nat) (elapsed : string) : printed unit :=
  match result_of (build_library fs depth ROOT) with
  | Raise e => ([], Raise e)
  | Ok (library, unknowns) =>
      let header := report_header elapsed library unknowns in
      match print_library library with
      | (out, Raise e) => (header ++ out, Raise e)
      | (out, Ok _) =>
          if (match unknowns with [] => false | _ :: _ => debug end) then
            (header ++ out ++ unknown_files_block unknowns, Ok tt)
          else (header ++ out, Ok tt)
      end
  end.

(** ** Finite file systems, for concrete runs *)

Inductive node : Type :=
| NDir (names : list string)
| NFile (content : result (list byte)) (loaded : result (option AudioFile))
| NOther.

Fixpoint lookup (nodes : list (string * node)) (path : string) : option node :=
  match nodes with
  | [] => None
  | (p, n) :: rest => if String.eqb p path then Some n else lookup rest path
  end.

(** The environment that answers from a table of paths; a path that is
    not in the table does not exist. *)
Definition fs_of (nodes : list (string * node)) : FS :=
  {| listdir := fun p =>
       match lookup nodes p with
       | Some (NDir names) => Ok names
       | _ => Raise (OSError p)
       end;
     isdir := fun p =>
       match lookup nodes p with Some (NDir _) => true | _ => false end;
     isfile := fun p =>
       match lookup nodes p with Some (NFile _ _) => true | _ => false end;
     open_rb := fun p =>
       match lookup nodes p with
       | Some (NFile c _) => c
       | _ => Raise (OSError p)
       end;
     eyed3_load := fun p =>
       match lookup nodes p with
       | Some (NFile _ a) => a
       | _ => Raise (OSError p)
       end |}.

Definition mkfile (path : string) : CollatorFile :=
  {| fname := path; hash := EmptyString; audiofile := None |}.

(** ** Notions the properties are stated with *)

Definition entry_path (path f : string) : string :=
  PyStr.replace PyStr.backslash PyStr.slash (OsPath.join path f).

Definition no_slash (seg : string) : Prop :=
  PyStr.contains PyStr.slash seg = false.

Definition no_backslash (p : string) : Prop :=
  PyStr.contains PyStr.backslash p = false.

(** The descriptor [build_library] would have made of the same file:
    every backslash of the path replaced by a slash. *)
Definition normalized (self : CollatorFile) : CollatorFile :=
  {| fname := PyStr.replace PyStr.backslash PyStr.slash (fname self);
     hash := hash self;
     audiofile := audiofile self |}.

Definition tag_field (field : Tag -> option string) (self : CollatorFile)
  : option string :=
  match audiofile self with
  | Some {| tag := Some t |} => field t
  | _ => None
  end.

(** The classification rule as the specification words it: a non-empty
    prefix, a dot, and an extension that is [mp3] or [m4a] up to case. *)
Definition audio_name_spec (base : string) : Prop :=
  exists prefix ext,
    prefix <> EmptyString
    /\ base = (prefix ++ String "." ext)%string
    /\ (PyStr.lower ext = "mp3" \/ PyStr.lower ext = "m4a").

(** What the traversal guarantees of a descriptor in the audio
    collection, and of a path in the unknown collection. *)
Definition audio_entry (fs : FS) (cf : CollatorFile) : Prop :=
  is_audio_file cf = true
  /\ isdir fs (fname cf) = false /\ isfile fs (fname cf) = true
  /\ exists content,
      open_rb fs (fname cf) = Ok content
      /\ hash cf = Sha1.sha1_hex content
      /\ eyed3_load fs (fname cf) = Ok (audiofile cf).

Definition unknown_entry (fs : FS) (u : string) : Prop :=
  isdir fs u = false
  /\ (isfile fs u = false \/ is_audio_file (mkfile u) = false).

(** Both collections of a result satisfy a property, element by element. *)
Definition holds_on (Pl : CollatorFile -> Prop) (Pu : string -> Prop)
  (r : library_t) : Prop :=
  Forall Pl (fst r) /\ Forall Pu (snd r).



(** The exception a library call of the trace raised, if it raised. *)
Definition fault (fs : FS) (ev : event) : option exn :=
  let raised {A} (r : result A) :=
    match r with Raise e => Some e | Ok _ => None end in
  match ev with
  | EListdir p => raised (listdir fs p)
  | EOpen p => raised (open_rb fs p)
  | ELoad p => raised (eyed3_load fs p)
  | EIsdir _ | EIsfile _ => None
  end.

(** A computation stops at the first call that raises, with that
    exception. *)
Definition aborts_on_fault {A} (fs : FS) (m : io A) : Prop :=
  forall ev e,
    In ev (trace_of m) -> fault fs ev = Some e -> result_of m = Raise e.



(** A small table used for concrete runs: one directory with an audio
    file of three bytes. *)
Definition fs_abc : FS :=
  fs_of [("r", NDir ["t.mp3"]);
         ("r/t.mp3", NFile (Ok [x61; x62; x63]) (Ok None))].

Definition fs_copy : FS :=
  fs_of [("elsewhere/copy.bin", NFile (Ok [x61; x62; x63]) (Ok None))].

(** The scenario of the specification: [root/sub/track1.mp3] (audio,
    tagged), [root/readme.txt], the empty directory [root/emptydir]. *)
Definition track1_tags : option AudioFile :=
  Some {| tag := Some {| title := Some "Track 1"; artist := Some "Artist";
                         album := Some "Album" |} |}.

Definition fs_scenario : FS :=
  fs_of [("root", NDir ["sub"; "readme.txt"; "emptydir"]);
         ("root/sub", NDir ["track1.mp3"]);
         ("root/sub/track1.mp3", NFile (Ok [x61; x62; x63]) (Ok track1_tags));
         ("root/readme.txt", NFile (Ok []) (Ok None));
         ("root/emptydir", NDir [])].

(** A directory with a symbolic link to nothing (the link is listed,
    but is neither a directory nor a file, and cannot be opened) and an
    unreadable file. *)
Definition fs_broken : FS :=
  fs_of [("root", NDir ["dangling"; "locked.mp3"]);
         ("root/locked.mp3",
          NFile (Raise (OSError "root/locked.mp3")) (Ok None))].

(** ** Directory trees *)

(** A finite directory tree: directories with their entries in listing
    order, regular files with their bytes and what the tag reader makes
    of them, and entries that are neither. *)
Inductive tree : Type :=
| TDir (entries : forest)
| TFile (content : list byte) (loaded : option AudioFile)
| TOther
with forest : Type :=
| FNil
| FCons (name : string) (t : tree) (rest : forest).

Fixpoint names_of (es : forest) : list string :=
  match es with
  | FNil => []
  | FCons name _ rest => name :: names_of rest
  end.

(** The number of nested directories. *)
Fixpoint height (t : tree) : nat :=
  match t with
  | TDir es => S (height_forest es)
  | TFile _ _ | TOther => 0
  end
with height_forest (es : forest) : nat :=
  match es with
  | FNil => 0
  | FCons _ t rest => Nat.max (height t) (height_forest rest)
  end.

(** The environment answers at [p], and below, as the tree says. *)
Fixpoint realizes (fs : FS) (p : string) (t : tree) : Prop :=
  match t with
  | TDir es =>
      isdir fs p = true /\ listdir fs p = Ok (names_of es)
      /\ realizes_forest fs p es
  | TFile content a =>
      isdir fs p = false /\ isfile fs p = true
      /\ open_rb fs p = Ok content /\ eyed3_load fs p = Ok a
  | TOther => isdir fs p = false /\ isfile fs p = false
  end
with realizes_forest (fs : FS) (p : string) (es : forest) : Prop :=
  match es with
  | FNil => True
  | FCons name t rest =>
      realizes fs (entry_path p name) t /\ realizes_forest fs p rest
  end.

(** The two collections of a tree at [p], depth first, in listing
    order. *)
Fixpoint collate (p : string) (t : tree) : library_t :=
  match t with
  | TDir es => collate_forest p es
  | TFile content a =>
      let ncf := {| fname := p; hash := Sha1.sha1_hex content;
                    audiofile := a |} in
      if is_audio_file ncf then ([ncf], []) else ([], [p])
  | TOther => ([], [p])
  end
with collate_forest (p : string) (es : forest) : library_t :=
  match es with
  | FNil => ([], [])
  | FCons name t rest =>
      let '(l, u) := collate (entry_path p name) t in
      let '(l', u') := collate_forest p rest in
      (l ++ l', u ++ u')
  end.

(** The path reached from [path] by following the entries
    [names 0], [names 1], ... *)
Fixpoint chain (names : nat -> string) (path : string) (k : nat) : string :=
  match k with
  | O => path
  | S k' => entry_path (chain names path k') (names k')
  end.

(** An environment in which every path is a directory that lists one
    entry, [loop]. *)
Definition fs_loop : FS :=
  {| listdir := fun _ => Ok ["loop"];
     isdir := fun _ => true;
     isfile := fun _ => false;
     open_rb := fun p => Raise (OSError p);
     eyed3_load := fun p => Raise (OSError p) |}.

(** A call of a traversal of [root] is justified by the tests made
    before it: only [root] and directories are listed, only what is
    not a directory is tested for being a file, only regular files
    are opened and loaded. *)
Definition justified (fs : FS) (root : string) (ev : event) : Prop :=
  match ev with
  | EListdir p => p = root \/ isdir fs p = true
  | EIsdir _ => True
  | EIsfile p => isdir fs p = false
  | EOpen p | ELoad p => isdir fs p = false /\ isfile fs p = true
  end.



Definition is_prefix (p s : string) : Prop :=
  exists rest, s = (p ++ rest)%string.

(** The number of occurrences of a character. *)
Fixpoint count_char (c : ascii) (s : string) : nat :=
  match s with
  | EmptyString => 0
  | String d s' => (if Ascii.eqb d c then 1 else 0) + count_char c s'
  end.

(** A name as [os.listdir] returns them, without separator of either
    kind and not empty. *)
Definition plain_name (f : string) : Prop :=
  f <> EmptyString /\ no_slash f /\ no_backslash f.

(** A directory path as [build_library] receives them from itself:
    not empty, no backslash, no slash at the end. *)
Definition plain_dir (path : string) : Prop :=
  path <> EmptyString /\ no_backslash path
  /\ PyStr.endswith_char PyStr.slash path = false.

(** The text [__str__] returns for a descriptor whose path has the
    segments [segs]. *)
Definition rendering (self : CollatorFile) (segs : list string) : string :=
  ("Title: " ++ last segs EmptyString
   ++ ", Artist: " ++ nth 4 segs EmptyString
   ++ ", Album: " ++ nth 5 segs EmptyString
   ++ String PyStr.newline "Title Tag: " ++ format_opt (tag_field title self)
   ++ String PyStr.newline "Album Tag: " ++ format_opt (tag_field album self)
   ++ String PyStr.newline "Artist Tag: "
   ++ format_opt (tag_field artist self))%string.

Definition deep_enough (self : CollatorFile) : Prop :=
  6 <= List.length (path_elements self).

Definition hex_char (c : ascii) : Prop :=
  In c (list_ascii_of_string "0123456789abcdef").

(** The tree of [fs_scenario] below [root]. *)
Definition scenario_forest : forest :=
  FCons "sub"
    (TDir (FCons "track1.mp3" (TFile [x61; x62; x63] track1_tags) FNil))
    (FCons "readme.txt" (TFile [] None)
       (FCons "emptydir" (TDir FNil) FNil)).

(** A library under the root of the script: one track two directories
    down, a text file beside the album. *)
Definition fs_deep : FS :=
  fs_of [("/home/ec2-user/dev.music", NDir ["Artist"]);
         ("/home/ec2-user/dev.music/Artist", NDir ["Album"; "notes.txt"]);
         ("/home/ec2-user/dev.music/Artist/Album", NDir ["t.mp3"]);
         ("/home/ec2-user/dev.music/Artist/Album/t.mp3",
          NFile (Ok [x61; x62; x63]) (Ok track1_tags));
         ("/home/ec2-user/dev.music/Artist/notes.txt",
          NFile (Ok []) (Ok None))].

Definition deep_track : CollatorFile :=
  {| fname := "/home/ec2-user/dev.music/Artist/Album/t.mp3";
     hash := Sha1.sha1_hex [x61; x62; x63];
     audiofile := track1_tags |}.

(** The same library with one more track, directly in the root. *)
Definition fs_loose : FS :=
  fs_of [("/home/ec2-user/dev.music", NDir ["Artist"; "loose.mp3"; "z.mp3"]);
         ("/home/ec2-user/dev.music/Artist", NDir ["Album"]);
         ("/home/ec2-user/dev.music/Artist/Album", NDir ["t.mp3"]);
         ("/home/ec2-user/dev.music/Artist/Album/t.mp3",
          NFile (Ok [x61; x62; x63]) (Ok track1_tags));
         ("/home/ec2-user/dev.music/loose.mp3", NFile (Ok []) (Ok None));
         ("/home/ec2-user/dev.music/z.mp3", NFile (Ok []) (Ok None))].

Definition loose_track (name : string) : CollatorFile :=
  {| fname := ("/home/ec2-user/dev.music/" ++ name)%string;
     hash := Sha1.sha1_hex [];
     audiofile := None |}.

(** What [print] writes for a descriptor. *)
Definition rendered (cf : CollatorFile) : string :=
  rendering cf (path_elements cf).


(** Every path of both collections starts with [root]. *)
Definition under (root : string) (r : library_t) : Prop :=
  holds_on (fun cf => is_prefix root (fname cf)) (is_prefix root) r.

(** What a traversal with calls [t] and collections [lib], [unk] owes
    to a call it made: the entries of a directory it listed are each
    tested; what tested as a directory is listed, what did not is tested
    for being a file; a regular file is opened, loaded and placed, its
    descriptor in [lib] when it is an audio name and its path in [unk]
    otherwise; what is not a regular file has its path in [unk]. *)
Definition handled (fs : FS) (t : list event) (lib : list CollatorFile)
  (unk : list string) (ev : event) : Prop :=
  match ev with
  | EListdir q =>
      forall found f,
        listdir fs q = Ok found -> In f found ->
        In (EIsdir (entry_path q f)) t
  | EIsdir p => if isdir fs p then In (EListdir p) t else In (EIsfile p) t
  | EIsfile p =>
      if isfile fs p then
        exists content a,
          open_rb fs p = Ok content /\ eyed3_load fs p = Ok a
          /\ In (EOpen p) t /\ In (ELoad p) t
          /\ (let ncf := {| fname := p; hash := Sha1.sha1_hex content;
                            audiofile := a |} in
              if is_audio_file ncf then In ncf lib else In p unk)
      else In p unk
  | EOpen _ | ELoad _ => True
  end.

Definition scanned (fs : FS) (t : list event) (lib : list CollatorFile)
  (unk : list string) : Prop :=
  forall ev, In ev t -> handled fs t lib unk ev.

(** The descriptor of the track of [fs_scenario]. *)
Definition scenario_track : CollatorFile :=
  {| fname := "root/sub/track1.mp3";
     hash := Sha1.sha1_hex [x61; x62; x63];
     audiofile := track1_tags |}.

(** * Properties *)

(** ** Splitting and joining *)

Section SplitJoin.
Import PyStr.
Variable sep : ascii.

Lemma split_not_nil (s : string) : split sep s <> [].
Proof.
  induction s as [|c s IH]; simpl; [discriminate|].
  destruct (Ascii.eqb c sep); [discriminate|].
  destruct (split sep s); discriminate.
Qed.

Lemma split_without_sep (s : string) :
  contains sep s = false -> split sep s = [s].
Proof.
  induction s as [|c s IH]; simpl; intros H; [reflexivity|].
  apply orb_false_iff in H as [Hc Hs].
  rewrite Hc, (IH Hs). reflexivity.
Qed.

Lemma split_app_sep (a b : string) :
  contains sep a = false ->
  split sep (a ++ String sep b) = a :: split sep b.
Proof.
  induction a as [|c a IH]; simpl; intros H.
  - rewrite Ascii.eqb_refl. reflexivity.
  - apply orb_false_iff in H as [Hc Ha].
    rewrite Hc, (IH Ha). reflexivity.
Qed.

Lemma split_join (segs : list string) :
  segs <> [] ->
  Forall (fun seg => contains sep seg = false) segs ->
  split sep (join sep segs) = segs.
Proof.
  induction segs as [|seg rest IH]; intros Hne Hall; [congruence|].
  inversion Hall as [|? ? Hseg Hrest]; subst.
  destruct rest as [|seg' rest'].
  - simpl. apply split_without_sep, Hseg.
  - change (join sep (seg :: seg' :: rest'))
      with (seg ++ String sep (join sep (seg' :: rest')))%string.
    rewrite split_app_sep by assumption.
    rewrite IH by (assumption || discriminate). reflexivity.
Qed.

Lemma join_split (s : string) : join sep (split sep s) = s.
Proof.
  induction s as [|c s IH]; simpl; [reflexivity|].
  destruct (Ascii.eqb_spec c sep) as [->|Hne].
  - pose proof (split_not_nil s) as Hnil.
    destruct (split sep s) as [|seg segs] eqn:E; [congruence|].
    change (join sep (EmptyString :: seg :: segs))
      with (String sep (join sep (seg :: segs))).
    rewrite IH. reflexivity.
  - destruct (split sep s) as [|seg segs] eqn:E.
    + exfalso. eapply split_not_nil, E.
    + destruct segs as [|seg' segs'].
      * simpl in *. rewrite IH. reflexivity.
      * change (join sep (String c seg :: seg' :: segs'))
          with (String c (seg ++ String sep (join sep (seg' :: segs'))))%string.
        change (join sep (seg :: seg' :: segs'))
          with (seg ++ String sep (join sep (seg' :: segs')))%string in IH.
        rewrite IH. reflexivity.
Qed.

Lemma split_segments_without_sep (s : string) :
  Forall (fun seg => contains sep seg = false) (split sep s).
Proof.
  induction s as [|c s IH]; simpl.
  - constructor; [reflexivity | constructor].
  - destruct (Ascii.eqb_spec c sep) as [->|Hne].
    + constructor; [reflexivity | assumption].
    + pose proof (split_not_nil s) as Hnil.
      destruct (split sep s) as [|seg segs]; [congruence|].
      inversion IH; subst. constructor; [|assumption].
      simpl. apply Ascii.eqb_neq in Hne. rewrite Hne. assumption.
Qed.

End SplitJoin.

Section Replace.
Import PyStr.

Lemma replace_removes (old new : ascii) (s : string) :
  old <> new -> contains old (replace old new s) = false.
Proof.
  intros Hne. induction s as [|c s IH]; simpl; [reflexivity|].
  rewrite IH, orb_false_r.
  destruct (Ascii.eqb_spec c old) as [->|Hc].
  - apply Ascii.eqb_neq. congruence.
  - apply Ascii.eqb_neq. assumption.
Qed.

Lemma replace_absent (old new : ascii) (s : string) :
  contains old s = false -> replace old new s = s.
Proof.
  induction s as [|c s IH]; simpl; intros H; [reflexivity|].
  apply orb_false_iff in H as [Hc Hs].
  rewrite Hc, (IH Hs). reflexivity.
Qed.

End Replace.

(** ** The positional accessors *)

Lemma path_elements_join (self : CollatorFile) (segs : list string) :
  segs <> [] -> Forall no_slash segs ->
  fname self = PyStr.join PyStr.slash segs ->
  path_elements self = segs.
Proof.
  intros Hne Hall Hf. unfold path_elements. rewrite Hf.
  apply split_join; assumption.
Qed.

(** C1, as the code has it: the accessors read positions 4 and 5 of the
    split path, so a path of seven segments [s0/s1/s2/s3/A/B/t] has path
    artist [A] and path album [B], while in a path of exactly six
    segments [s0/a/b/A/B/t] the artist and the album stand at positions
    3 and 4 and the accessors return [B] and [t]. *)
Theorem path_artist_album_by_position
  (self : CollatorFile) (s0 s1 s2 s3 s4 s5 : string) (more : list string) :
  Forall no_slash (s0 :: s1 :: s2 :: s3 :: s4 :: s5 :: more) ->
  fname self =
    PyStr.join PyStr.slash (s0 :: s1 :: s2 :: s3 :: s4 :: s5 :: more) ->
  path_artist self = Ok s4 /\ path_album self = Ok s5.
Proof.
  intros Hall Hf. unfold path_artist, path_album.
  rewrite (path_elements_join self _ (not_eq_sym (@nil_cons _ _ _)) Hall Hf).
  split; reflexivity.
Qed.

Lemma path_artist_album_by_position_witness :
  let self := mkfile "/home/ec2-user/dev.music/ARTISTX/ALBUMY/track.mp3" in
  path_artist self = Ok "ARTISTX" /\ path_album self = Ok "ALBUMY".
Proof.
  apply (path_artist_album_by_position _
           "" "home" "ec2-user" "dev.music" "ARTISTX" "ALBUMY" ["track.mp3"]).
  - repeat constructor.
  - reflexivity.
Defined.

(** C1 as the specification words it fails: the six-segment path
    [x/a/b/ARTISTX/ALBUMY/track.mp3] gives path artist [ALBUMY] and path
    album [track.mp3]. *)
Lemma path_artist_six_segments_counterexample :
  let self := mkfile "x/a/b/ARTISTX/ALBUMY/track.mp3" in
  List.length (path_elements self) = 6
  /\ path_artist self = Ok "ALBUMY" /\ path_album self = Ok "track.mp3"
  /\ path_artist self <> Ok "ARTISTX" /\ path_album self <> Ok "ALBUMY".
Proof.
  cbv zeta. repeat split; try reflexivity; vm_compute; discriminate.
Qed.

Lemma getitem_in_range {A} (l : list A) (i : nat) (d : A) :
  i < List.length l -> PyStr.getitem l i = Ok (nth i l d).
Proof.
  intros H. unfold PyStr.getitem.
  rewrite (nth_error_nth' l d H). reflexivity.
Qed.

Lemma getitem_out_of_range {A} (l : list A) (i : nat) :
  List.length l <= i -> PyStr.getitem l i = Raise IndexError.
Proof.
  intros H. unfold PyStr.getitem.
  apply nth_error_None in H. rewrite H. reflexivity.
Qed.

(** C2, as the code has it: with six segments or more the accessors
    return the segments at index 4 and 5; with exactly five segments
    the path artist is still the segment at index 4 and only the path
    album fails; with fewer than five both fail with an index error. *)
Theorem path_accessors_by_segment_count (self : CollatorFile) :
  let segs := path_elements self in
  (6 <= List.length segs ->
     path_artist self = Ok (nth 4 segs EmptyString)
     /\ path_album self = Ok (nth 5 segs EmptyString))
  /\ (List.length segs = 5 ->
     path_artist self = Ok (nth 4 segs EmptyString)
     /\ path_album self = Raise IndexError)
  /\ (List.length segs < 5 ->
     path_artist self = Raise IndexError
     /\ path_album self = Raise IndexError).
Proof.
  intros segs. unfold path_artist, path_album. fold segs.
  split; [|split]; intros Hlen; split;
    first [ apply getitem_in_range; lia | apply getitem_out_of_range; lia ].
Qed.

Lemma path_accessors_by_segment_count_witness :
  (path_artist (mkfile "r/m/a/b/c/d.mp3") = Ok "c"
   /\ path_album (mkfile "r/m/a/b/c/d.mp3") = Ok "d.mp3")
  /\ (path_artist (mkfile "a/b/c/d/e") = Ok "e"
      /\ path_album (mkfile "a/b/c/d/e") = Raise IndexError)
  /\ (path_artist (mkfile "a/b.mp3") = Raise IndexError
      /\ path_album (mkfile "a/b.mp3") = Raise IndexError).
Proof.
  split; [|split].
  - apply (proj1 (path_accessors_by_segment_count (mkfile "r/m/a/b/c/d.mp3"))).
    vm_compute. lia.
  - apply (proj1 (proj2 (path_accessors_by_segment_count
                           (mkfile "a/b/c/d/e")))).
    reflexivity.
  - apply (proj2 (proj2 (path_accessors_by_segment_count (mkfile "a/b.mp3")))).
    vm_compute. lia.
Defined.

(** C2 as the specification words it fails: a path of five segments has
    fewer than six, yet its path artist is returned, not an error. *)
Lemma path_artist_five_segments_counterexample :
  let self := mkfile "a/b/c/d/e" in
  List.length (path_elements self) < 6
  /\ path_artist self = Ok "e"
  /\ path_artist self <> Raise IndexError.
Proof.
  cbv zeta. split; [vm_compute; lia|]. split; [reflexivity|].
  vm_compute. discriminate.
Qed.

(** ** The tag accessors *)

(** C8: each tag accessor returns without raising; its value is the
    field of the tag when the file was loaded, has a tag and the tag
    has the field, and [None] otherwise; each depends on its own field
    only. *)
Theorem tag_accessors_never_raise (self : CollatorFile) :
  title_tag self = Ok (tag_field title self)
  /\ artist_tag self = Ok (tag_field artist self)
  /\ album_tag self = Ok (tag_field album self).
Proof.
  unfold title_tag, artist_tag, album_tag, tag_field.
  destruct (audiofile self) as [[[t|]]|]; simpl; repeat split; reflexivity.
Qed.

Example album_absent_others_present :
  let self :=
    {| fname := "r/t.mp3"; hash := EmptyString;
       audiofile :=
         Some {| tag := Some {| title := Some "T"; artist := Some "A";
                                album := None |} |} |} in
  album_tag self = Ok None
  /\ title_tag self = Ok (Some "T") /\ artist_tag self = Ok (Some "A").
Proof. repeat split. Qed.

Example no_tag_container :
  title_tag (mkfile "r/t.mp3") = Ok None
  /\ title_tag {| fname := "r/t.mp3"; hash := EmptyString;
                  audiofile := Some {| tag := None |} |} = Ok None.
Proof. split; reflexivity. Qed.

(** ** The regular expression of [is_audio_file] *)

Section Matching.
Import PyStr Re.

Lemma contains_app (c : ascii) (a b : string) :
  contains c (a ++ b) = contains c a || contains c b.
Proof.
  induction a as [|d a IH]; simpl; [reflexivity|].
  rewrite IH, orb_assoc. reflexivity.
Qed.

Lemma in_ends_any (ic : bool) (s s' : string) :
  In s' (ends ic Any s) <->
  exists c, s = String c s' /\ Ascii.eqb c newline = false.
Proof.
  destruct s as [|c s]; simpl.
  - split; [tauto | intros [c [H _]]; discriminate].
  - destruct (Ascii.eqb c newline) eqn:E; simpl.
    + split; [tauto|]. intros [d [H Hd]]. congruence.
    + split.
      * intros [<-|[]]. exists c. split; [reflexivity | assumption].
      * intros [d [H Hd]]. left. congruence.
Qed.

Lemma plus_iter_eq (step : string -> list string) (fuel : nat) (s : string) :
  plus_iter step fuel s =
  flat_map
    (fun s1 =>
       match fuel with O => [] | S n => plus_iter step n s1 end ++ [s1])
    (step s).
Proof. destruct fuel; reflexivity. Qed.

(** [.+] takes a non-empty run of characters other than newlines. *)
Lemma in_plus_any_sound (ic : bool) (fuel : nat) (s s' : string) :
  In s' (plus_iter (ends ic Any) fuel s) ->
  exists p, p <> EmptyString /\ contains newline p = false
            /\ s = (p ++ s')%string.
Proof.
  revert s. induction fuel as [|n IH]; intros s H;
    rewrite plus_iter_eq in H;
    apply in_flat_map in H as [s1 [Hs1 Hin]];
    apply in_ends_any in Hs1 as [c [-> Hc]];
    apply in_app_or in Hin as [Hin|[<-|[]]].
  - destruct Hin.
  - exists (String c EmptyString). simpl. rewrite Hc.
    repeat split; discriminate.
  - destruct (IH _ Hin) as [p [Hp [Hnl ->]]].
    exists (String c p). simpl. rewrite Hc, Hnl.
    repeat split; discriminate.
  - exists (String c EmptyString). simpl. rewrite Hc.
    repeat split; discriminate.
Qed.

Lemma in_plus_any_complete (ic : bool) (p s' : string) (fuel : nat) :
  p <> EmptyString -> contains newline p = false ->
  String.length p <= S fuel ->
  In s' (plus_iter (ends ic Any) fuel (p ++ s')).
Proof.
  revert fuel. induction p as [|c p IH]; intros fuel Hne Hnl Hlen;
    [congruence|].
  simpl in Hnl. apply orb_false_iff in Hnl as [Hc Hp].
  rewrite plus_iter_eq. apply in_flat_map. exists (p ++ s')%string. split.
  - apply in_ends_any. exists c. split; [reflexivity | assumption].
  - apply in_or_app. destruct p as [|d p'].
    + right. left. reflexivity.
    + left. destruct fuel as [|n]; [simpl in Hlen; lia|].
      apply IH; [discriminate | assumption | simpl in *; lia].
Qed.

Lemma string_length_app (a b : string) :
  String.length (a ++ b) = String.length a + String.length b.
Proof. induction a; simpl; congruence. Qed.

Lemma in_plus_any (ic : bool) (s s' : string) :
  In s' (ends ic (Plus Any) s) <->
  exists p, p <> EmptyString /\ contains newline p = false
            /\ s = (p ++ s')%string.
Proof.
  change (ends ic (Plus Any) s)
    with (plus_iter (ends ic Any) (String.length s) s).
  split.
  - apply (in_plus_any_sound ic).
  - intros [p [Hne [Hnl ->]]].
    apply (in_plus_any_complete ic); try assumption.
    rewrite string_length_app. lia.
Qed.

End Matching.

Section AudioPattern.
Import PyStr Re.

Lemma in_ends_lit (ic : bool) (p : ascii) (s s' : string) :
  In s' (ends ic (Lit p) s) <->
  exists c, s = String c s' /\ char_eq ic p c = true.
Proof.
  destruct s as [|c s]; simpl.
  - split; [tauto | intros [c [H _]]; discriminate].
  - destruct (char_eq ic p c) eqn:E; simpl.
    + split.
      * intros [<-|[]]. exists c. split; [reflexivity | assumption].
      * intros [d [H Hd]]. left. congruence.
    + split; [tauto|]. intros [d [H Hd]]. congruence.
Qed.

Lemma in_ends_cat (ic : bool) (r1 r2 : regex) (s s' : string) :
  In s' (ends ic (Cat r1 r2) s) <->
  exists m, In m (ends ic r1 s) /\ In s' (ends ic r2 m).
Proof. simpl. apply in_flat_map. Qed.

Lemma in_ends_alt (ic : bool) (r1 r2 : regex) (s s' : string) :
  In s' (ends ic (Alt r1 r2) s) <->
  In s' (ends ic r1 s) \/ In s' (ends ic r2 s).
Proof. simpl. apply in_app_iff. Qed.

Lemma in_ends_eol (ic : bool) (s s' : string) :
  In s' (ends ic Eol s) <->
  s' = s /\ (s = EmptyString \/ s = String newline EmptyString).
Proof.
  destruct s as [|c [|d s]]; simpl.
  - split; [intros [<-|[]]; auto | intros [-> _]; auto].
  - destruct (Ascii.eqb_spec c newline) as [->|Hne]; simpl.
    + split; [intros [<-|[]]; auto | intros [-> _]; auto].
    + split; [tauto|]. intros [_ [H|H]]; congruence.
  - split; [tauto|]. intros [_ [H|H]]; discriminate.
Qed.

(** Under [re.IGNORECASE] a lower-case literal matches the characters
    that lower-case to it. *)
Lemma char_eq_lower (p c : ascii) :
  lower_char p = p ->
  (char_eq true p c = true <-> lower_char c = p).
Proof.
  intros Hp. unfold char_eq. rewrite Hp, Ascii.eqb_eq.
  split; intros H; congruence.
Qed.

Lemma lower_char_dot (c : ascii) : lower_char c = "."%char <-> c = "."%char.
Proof.
  split; [|intros ->; reflexivity].
  destruct c as [[] [] [] [] [] [] [] []]; vm_compute; congruence.
Qed.

(** A three-letter lower-case literal word. *)
Lemma in_ends_word3 (a b c : ascii) (s s' : string) :
  lower_char a = a -> lower_char b = b -> lower_char c = c ->
  (In s' (ends true (Cat (Lit a) (Cat (Lit b) (Lit c))) s) <->
   exists ext, s = (ext ++ s')%string
               /\ lower ext = String a (String b (String c EmptyString))).
Proof.
  intros Ha Hb Hc. rewrite in_ends_cat. split.
  - intros [m1 [H1 H2]].
    apply in_ends_lit in H1 as [c1 [-> E1]].
    apply in_ends_cat in H2 as [m2 [H2 H3]].
    apply in_ends_lit in H2 as [c2 [-> E2]].
    apply in_ends_lit in H3 as [c3 [-> E3]].
    apply char_eq_lower in E1, E2, E3; try assumption.
    exists (String c1 (String c2 (String c3 EmptyString))).
    simpl. rewrite E1, E2, E3. split; reflexivity.
  - intros [ext [-> Hl]].
    destruct ext as [|c1 [|c2 [|c3 [|c4 ext]]]]; simpl in Hl;
      try discriminate.
    injection Hl as E1 E2 E3.
    exists (String c2 (String c3 s')). split.
    + apply in_ends_lit. exists c1. split; [reflexivity|].
      apply char_eq_lower; assumption.
    + apply in_ends_cat. exists (String c3 s'). split.
      * apply in_ends_lit. exists c2. split; [reflexivity|].
        apply char_eq_lower; assumption.
      * apply in_ends_lit. exists c3. split; [reflexivity|].
        apply char_eq_lower; assumption.
Qed.

(** What the whole pattern accepts at the start of [s]. *)
Lemma in_ends_iaf_re (s s' : string) :
  In s' (ends true iaf_re s) <->
  exists prefix ext,
    s = (prefix ++ String "." (ext ++ s'))%string
    /\ prefix <> EmptyString /\ contains newline prefix = false
    /\ (lower ext = "mp3" \/ lower ext = "m4a")
    /\ (s' = EmptyString \/ s' = String newline EmptyString).
Proof.
  unfold iaf_re. rewrite in_ends_cat. split.
  - intros [m1 [H1 H2]].
    apply in_plus_any in H1 as [prefix [Hne [Hnl ->]]].
    apply in_ends_cat in H2 as [m2 [H2 H3]].
    apply in_ends_lit in H2 as [d [-> Ed]].
    apply in_ends_cat in H3 as [m3 [H3 H4]].
    apply in_ends_eol in H4 as [-> Htail].
    unfold char_eq in Ed. apply Ascii.eqb_eq in Ed.
    symmetry in Ed. change (lower_char ".") with "."%char in Ed.
    apply (proj1 (lower_char_dot d)) in Ed. subst d.
    apply in_ends_alt in H3 as [H3|H3];
      apply in_ends_word3 in H3 as [ext [-> Hext]]; try reflexivity;
      exists prefix, ext; repeat split; auto.
  - intros [prefix [ext [-> [Hne [Hnl [Hext Htail]]]]]].
    exists (String "." (ext ++ s')). split.
    + apply in_plus_any. exists prefix. repeat split; assumption.
    + apply in_ends_cat. exists (ext ++ s')%string. split.
      * apply in_ends_lit. exists "."%char. split; reflexivity.
      * apply in_ends_cat. exists s'. split.
        -- apply in_ends_alt. destruct Hext as [Hext|Hext]; [left|right];
             (apply in_ends_word3; [reflexivity..|]);
             exists ext; split; auto.
        -- apply in_ends_eol. split; [reflexivity | assumption].
Qed.

Lemma is_audio_file_iff (self : CollatorFile) :
  is_audio_file self = true <->
  exists s', In s' (ends true iaf_re (OsPath.basename (fname self))).
Proof.
  unfold is_audio_file, re_match.
  destruct (ends true iaf_re (OsPath.basename (fname self))) as [|s' l];
    simpl.
  - split; [discriminate | intros [s' []]].
  - split; [intros _; exists s'; left; reflexivity | reflexivity].
Qed.

End AudioPattern.

Lemma append_empty_r (s : string) : (s ++ EmptyString)%string = s.
Proof. induction s; simpl; congruence. Qed.

(** What [is_audio_file] decides, for every file name: the pattern of
    the specification with a prefix free of newlines, possibly followed
    by one final newline. *)
Lemma is_audio_file_exact (self : CollatorFile) :
  is_audio_file self = true <->
  exists prefix ext tail,
    OsPath.basename (fname self) = (prefix ++ String "." (ext ++ tail))%string
    /\ prefix <> EmptyString
    /\ PyStr.contains PyStr.newline prefix = false
    /\ (PyStr.lower ext = "mp3" \/ PyStr.lower ext = "m4a")
    /\ (tail = EmptyString \/ tail = String PyStr.newline EmptyString).
Proof.
  rewrite is_audio_file_iff. split.
  - intros [s' H]. apply in_ends_iaf_re in H as [prefix [ext H]].
    exists prefix, ext, s'. exact H.
  - intros [prefix [ext [tail H]]]. exists tail.
    apply in_ends_iaf_re. exists prefix, ext. exact H.
Qed.

Lemma is_audio_file_newline_free (self : CollatorFile) :
  PyStr.contains PyStr.newline (OsPath.basename (fname self)) = false ->
  (is_audio_file self = true <->
   audio_name_spec (OsPath.basename (fname self))).
Proof.
  intros Hnl. rewrite is_audio_file_exact. split.
  - intros [prefix [ext [tail [Hb [Hne [_ [Hext Htail]]]]]]].
    exists prefix, ext. repeat split; try assumption.
    destruct Htail as [->| ->].
    + rewrite append_empty_r in Hb. exact Hb.
    + rewrite Hb in Hnl. rewrite contains_app in Hnl.
      apply orb_false_iff in Hnl as [_ Hnl].
      change (PyStr.contains PyStr.newline
                (String "." (ext ++ String PyStr.newline EmptyString)))
        with (Ascii.eqb "." PyStr.newline
              || PyStr.contains PyStr.newline
                   (ext ++ String PyStr.newline EmptyString)) in Hnl.
      apply orb_false_iff in Hnl as [_ Hnl].
      rewrite contains_app in Hnl.
      apply orb_false_iff in Hnl as [_ Hnl]. discriminate.
  - intros [prefix [ext [Hne [Hb Hext]]]].
    exists prefix, ext, EmptyString. rewrite append_empty_r.
    repeat split; auto.
    rewrite Hb, contains_app in Hnl.
    apply orb_false_iff in Hnl. tauto.
Qed.

(** X19: where the code does what C3 says.  For a base name that holds
    no newline, [is_audio_file] is true exactly when the name is a
    non-empty prefix, a dot and an extension equal to [mp3] or [m4a] up
    to case; it is true for [track.MP3] and [track.m4a], false for
    [cover.jpg] and [track.mp3.bak]. *)
Theorem is_audio_file_by_extension :
  (forall self : CollatorFile,
      PyStr.contains PyStr.newline (OsPath.basename (fname self)) = false ->
      (is_audio_file self = true <->
       audio_name_spec (OsPath.basename (fname self))))
  /\ is_audio_file (mkfile "track.MP3") = true
  /\ is_audio_file (mkfile "track.m4a") = true
  /\ is_audio_file (mkfile "cover.jpg") = false
  /\ is_audio_file (mkfile "track.mp3.bak") = false.
Proof.
  split; [exact is_audio_file_newline_free | repeat split].
Qed.

Lemma is_audio_file_by_extension_witness :
  is_audio_file (mkfile "/music/a/track.MP3") = true <->
  audio_name_spec (OsPath.basename (fname (mkfile "/music/a/track.MP3"))).
Proof.
  apply (proj1 is_audio_file_by_extension (mkfile "/music/a/track.MP3")).
  reflexivity.
Defined.

(** C3, a defect of the code: the docstring of [is_audio_file] says the
    test is on the extension alone, and the pattern is anchored at the
    end to that effect, yet [$] also matches before a final newline and
    [.] matches no newline.  So [track.mp3] followed by a newline is
    classified as audio although its extension is not exactly [mp3],
    and a name with a newline in its prefix is rejected although its
    extension is [mp3]. *)
Theorem is_audio_file_on_newline_names :
  let trailing := ("track.mp3" ++ String PyStr.newline EmptyString)%string in
  let inner := String "a" (String PyStr.newline "b.mp3") in
  (is_audio_file (mkfile trailing) = true
   /\ ~ audio_name_spec (OsPath.basename (fname (mkfile trailing))))
  /\ (is_audio_file (mkfile inner) = false
      /\ audio_name_spec (OsPath.basename (fname (mkfile inner)))).
Proof.
  cbv zeta. split; split.
  - reflexivity.
  - intros [prefix [ext [Hne [Hb Hext]]]].
    assert (Hlen : String.length ext = 3).
    { destruct Hext as [H|H]; apply (f_equal String.length) in H;
        revert H; clear; revert ext;
        assert (L : forall s, String.length (PyStr.lower s) = String.length s)
          by (induction s; simpl; congruence);
        intros ext; rewrite L; trivial. }
    apply (f_equal String.length) in Hb as Hl.
    rewrite string_length_app in Hl. simpl in Hl. rewrite Hlen in Hl.
    destruct prefix as [|p1 [|p2 [|p3 [|p4 [|p5 [|p6 [|p7 prefix]]]]]]];
      simpl in Hl; try lia.
    destruct ext as [|e1 [|e2 [|e3 [|e4 ext]]]]; simpl in Hlen; try lia.
    vm_compute in Hb. injection Hb as _ _ _ _ _ _ _ _ _ He3. subst.
    destruct Hext as [H|H]; vm_compute in H; discriminate.
  - reflexivity.
  - exists (String "a" (String PyStr.newline "b")), "mp3".
    repeat split; [discriminate | left; reflexivity].
Qed.

(** ** The incremental hash *)

Section Absorb.
Import Sha1.

Lemma absorb_S (n : nat) (h : state) (l : list byte) :
  absorb (S n) h l =
  if (List.length l <? 64)%nat then (h, l)
  else absorb n (compress h (firstn 64 l)) (skipn 64 l).
Proof. reflexivity. Qed.

(** Any fuel that covers the length gives the same result. *)
Lemma absorb_fuel (fuel1 fuel2 : nat) (h : state) (l : list byte) :
  List.length l <= fuel1 -> List.length l <= fuel2 ->
  absorb fuel1 h l = absorb fuel2 h l.
Proof.
  revert fuel2 h l. induction fuel1 as [|n IH]; intros fuel2 h l H1 H2.
  - destruct l; [|simpl in H1; lia]. destruct fuel2; reflexivity.
  - rewrite absorb_S. destruct (List.length l <? 64)%nat eqn:E.
    + destruct fuel2; [|rewrite absorb_S, E]; reflexivity.
    + apply Nat.ltb_ge in E as E'.
      destruct fuel2 as [|m]; [lia|]. rewrite absorb_S, E.
      apply IH; rewrite length_skipn; lia.
Qed.

(** Bytes fed in two parts go through the same blocks as bytes fed
    at once. *)
Lemma absorb_app (fuel : nat) (h : state) (l b : list byte) :
  List.length l <= fuel ->
  absorb (List.length (l ++ b)) h (l ++ b) =
  let '(h', r) := absorb fuel h l in
  absorb (List.length (r ++ b)) h' (r ++ b).
Proof.
  revert h l. induction fuel as [|n IH]; intros h l Hlen.
  - destruct l; [reflexivity | simpl in Hlen; lia].
  - rewrite absorb_S. destruct (List.length l <? 64)%nat eqn:E;
      [reflexivity|].
    apply Nat.ltb_ge in E.
    rewrite <- (IH (compress h (firstn 64 l)) (skipn 64 l))
      by (rewrite length_skipn; lia).
    destruct (List.length (l ++ b)) as [|m] eqn:El;
      [rewrite length_app in El; lia|].
    rewrite absorb_S.
    assert (Hge : (List.length (l ++ b) <? 64)%nat = false)
      by (apply Nat.ltb_ge; rewrite length_app; lia).
    rewrite Hge.
    rewrite firstn_app, skipn_app.
    replace (64 - List.length l) with 0 by lia.
    rewrite firstn_O, skipn_O, app_nil_r.
    apply absorb_fuel; rewrite ?length_app, ?length_skipn in *; lia.
Qed.

Lemma update_app (hs : hasher) (a b : list byte) :
  update (update hs a) b = update hs (a ++ b).
Proof.
  unfold update at 2. unfold update at 2.
  rewrite app_assoc.
  rewrite (absorb_app (List.length (pending hs ++ a)) (chain hs)
             (pending hs ++ a) b (le_n _)).
  destruct (absorb (List.length (pending hs ++ a)) (chain hs)
              (pending hs ++ a)) as [h1 r1].
  unfold update. simpl.
  destruct (absorb (List.length (r1 ++ b)) h1 (r1 ++ b)) as [h2 r2].
  f_equal. rewrite length_app. lia.
Qed.

Lemma update_new_nil : update new [] = new.
Proof. reflexivity. Qed.

End Absorb.

(** ** [generate_hash] *)

Section GenerateHash.

Lemma read_total (n : Z) (afile : file_object) :
  fst (read n afile) ++ snd (read n afile) = afile.
Proof.
  unfold read. destruct (n <? 0)%Z; simpl.
  - apply app_nil_r.
  - apply firstn_skipn.
Qed.

(** With a block size other than zero, an empty read means the end of
    the file. *)
Lemma read_empty_at_end (n : Z) (afile : file_object) :
  n <> 0%Z -> fst (read n afile) = [] -> snd (read n afile) = [].
Proof.
  unfold read. intros Hn. destruct (n <? 0)%Z eqn:E; simpl.
  - reflexivity.
  - apply Z.ltb_ge in E.
    destruct (Z.to_nat n) as [|k] eqn:Ek; [lia|].
    destruct afile; simpl; [reflexivity | discriminate].
Qed.

Lemma hash_loop_S (blocksize : Z) (n : nat) (hasher : Sha1.hasher)
  (buf : list byte) (afile : file_object) :
  hash_loop blocksize (S n) hasher buf afile =
  if (0 <? List.length buf)%nat then
    hash_loop blocksize n (Sha1.update hasher buf)
      (fst (read blocksize afile)) (snd (read blocksize afile))
  else hasher.
Proof.
  simpl. destruct (read blocksize afile). reflexivity.
Qed.

(** The loop feeds the hasher what is in [buf] and what is left in
    the file, block after block; the hasher ends as if all of it had
    been fed at once. *)
Lemma hash_loop_feeds_all (blocksize : Z) (fuel : nat) (h0 : Sha1.hasher)
  (pre buf : list byte) (afile : file_object) :
  blocksize <> 0%Z ->
  List.length buf + List.length afile <= fuel ->
  (buf = [] -> afile = []) ->
  hash_loop blocksize fuel (Sha1.update h0 pre) buf afile =
  Sha1.update h0 (pre ++ buf ++ afile).
Proof.
  intros Hbs. revert pre buf afile.
  induction fuel as [|n IH]; intros pre buf afile Hlen Hend.
  - destruct buf; [|simpl in Hlen; lia].
    rewrite (Hend eq_refl), app_nil_r. reflexivity.
  - rewrite hash_loop_S. destruct buf as [|b buf].
    + rewrite (Hend eq_refl), app_nil_r. reflexivity.
    + change (0 <? List.length (b :: buf))%nat with true. cbv iota.
      rewrite update_app.
      rewrite IH.
      * rewrite <- app_assoc, (read_total blocksize afile). reflexivity.
      * pose proof (f_equal (@List.length byte) (read_total blocksize afile))
          as Hl.
        rewrite length_app in Hl. simpl in Hlen. lia.
      * apply read_empty_at_end, Hbs.
Qed.

End GenerateHash.

Lemma generate_hash_blocks_ok (blocksize : Z) (fs : FS) (fname : string)
  (content : list byte) :
  blocksize <> 0%Z -> open_rb fs fname = Ok content ->
  generate_hash_blocks blocksize fs fname =
  ([EOpen fname], Ok (Sha1.sha1_hex content)).
Proof.
  intros Hbs Hopen. unfold generate_hash_blocks, open, bind.
  rewrite Hopen.
  pose proof (read_total blocksize content) as Htot.
  pose proof (read_empty_at_end blocksize content Hbs) as Hend.
  destruct (read blocksize content) as [buf afile]. simpl in Htot, Hend.
  unfold ret.
  change Sha1.new with (Sha1.update Sha1.new []).
  rewrite hash_loop_feeds_all; try assumption.
  - rewrite app_nil_l, Htot. reflexivity.
  - rewrite <- Htot, length_app. lia.
Qed.

Lemma generate_hash_blocks_raise (blocksize : Z) (fs : FS) (fname : string)
  (e : exn) :
  open_rb fs fname = Raise e ->
  generate_hash_blocks blocksize fs fname = ([EOpen fname], Raise e).
Proof.
  intros Hopen. unfold generate_hash_blocks, open, bind.
  rewrite Hopen. reflexivity.
Qed.

(** C4: for a file that opens, [generate_hash] returns the SHA-1 hex
    digest of the whole content, that is what feeding the content to
    the hasher at once gives; reading in blocks of any other size than
    the 64 KiB used (zero apart, which reads nothing) gives the same
    digest. *)
Theorem generate_hash_is_sha1_of_content (fs : FS) (fname : string)
  (content : list byte) :
  open_rb fs fname = Ok content ->
  result_of (generate_hash fs fname) = Ok (Sha1.sha1_hex content)
  /\ forall blocksize : Z,
      blocksize <> 0%Z ->
      result_of (generate_hash_blocks blocksize fs fname) =
      result_of (generate_hash fs fname).
Proof.
  intros Hopen. unfold generate_hash.
  rewrite (generate_hash_blocks_ok BLOCKSIZE fs fname content)
    by (discriminate || assumption).
  split; [reflexivity|].
  intros blocksize Hbs.
  rewrite (generate_hash_blocks_ok blocksize fs fname content) by assumption.
  reflexivity.
Qed.

Lemma generate_hash_is_sha1_of_content_witness :
  result_of (generate_hash fs_abc "r/t.mp3")
  = Ok (Sha1.sha1_hex [x61; x62; x63])
  /\ result_of (generate_hash_blocks 2 fs_abc "r/t.mp3") =
     result_of (generate_hash fs_abc "r/t.mp3").
Proof.
  destruct (generate_hash_is_sha1_of_content fs_abc "r/t.mp3" [x61; x62; x63]
              eq_refl) as [Hdigest Hblocks].
  split; [exact Hdigest | apply Hblocks; discriminate].
Defined.

Example sha1_abc :
  Sha1.sha1_hex [x61; x62; x63] = "a9993e364706816aba3e25717850c26c9cd0d89d".
Proof. vm_compute. reflexivity. Qed.

Example sha1_empty :
  Sha1.sha1_hex [] = "da39a3ee5e6b4b0d3255bfef95601890afd80709".
Proof. vm_compute. reflexivity. Qed.

(** A message of 56 bytes, whose padding takes a second block. *)
Example sha1_two_blocks :
  Sha1.sha1_hex
    [x61; x62; x63; x64; x62; x63; x64; x65; x63; x64; x65; x66; x64; x65;
     x66; x67; x65; x66; x67; x68; x66; x67; x68; x69; x67; x68; x69; x6a;
     x68; x69; x6a; x6b; x69; x6a; x6b; x6c; x6a; x6b; x6c; x6d; x6b; x6c;
     x6d; x6e; x6c; x6d; x6e; x6f; x6d; x6e; x6f; x70; x6e; x6f; x70; x71]
  = "84983e441c3bd26ebaae4aa1f95129e5e54670f1".
Proof. vm_compute. reflexivity. Qed.

Example generate_hash_block_size_zero :
  result_of (generate_hash_blocks 0 fs_abc "r/t.mp3") = Ok (Sha1.sha1_hex []).
Proof. vm_compute. reflexivity. Qed.

(** C9: two files with the same bytes have the same digest, whatever
    their names and wherever they are; and two calls on the same file
    return the same digest. *)
Theorem generate_hash_depends_on_content_only (fs1 fs2 : FS)
  (fname1 fname2 : string) (content : list byte) :
  open_rb fs1 fname1 = Ok content ->
  open_rb fs2 fname2 = Ok content ->
  exists digest : string,
    result_of (generate_hash fs1 fname1) = Ok digest
    /\ result_of (generate_hash fs2 fname2) = Ok digest
    /\ result_of (h1 <- generate_hash fs1 fname1 ;;
                  h2 <- generate_hash fs1 fname1 ;;
                  ret (h1, h2)) = Ok (digest, digest).
Proof.
  intros H1 H2. exists (Sha1.sha1_hex content). unfold generate_hash.
  rewrite (generate_hash_blocks_ok BLOCKSIZE fs1 fname1 content)
    by (discriminate || assumption).
  rewrite (generate_hash_blocks_ok BLOCKSIZE fs2 fname2 content)
    by (discriminate || assumption).
  repeat split.
Qed.

Lemma generate_hash_depends_on_content_only_witness :
  exists digest : string,
    result_of (generate_hash fs_abc "r/t.mp3") = Ok digest
    /\ result_of (generate_hash fs_copy "elsewhere/copy.bin") = Ok digest
    /\ result_of (h1 <- generate_hash fs_abc "r/t.mp3" ;;
                  h2 <- generate_hash fs_abc "r/t.mp3" ;;
                  ret (h1, h2)) = Ok (digest, digest).
Proof.
  apply (generate_hash_depends_on_content_only fs_abc fs_copy
           "r/t.mp3" "elsewhere/copy.bin" [x61; x62; x63]); reflexivity.
Defined.

(** ** Computations *)

Section IoFacts.
Context {A B : Type}.

Lemma bind_ok (t : list event) (a : A) (f : A -> io B) :
  bind (t, Ok a) f = (t ++ trace_of (f a), result_of (f a)).
Proof. unfold bind. destruct (f a). reflexivity. Qed.

Lemma bind_raise (t : list event) (e : exn) (f : A -> io B) :
  bind (t, Raise e) f = (t, Raise e).
Proof. reflexivity. Qed.

Lemma bind_ret_l (a : A) (f : A -> io B) : bind (ret a) f = f a.
Proof. unfold ret. rewrite bind_ok. destruct (f a). reflexivity. Qed.

Lemma bind_ok_inv (m : io A) (f : A -> io B) (t : list event) (b : B) :
  bind m f = (t, Ok b) ->
  exists t1 a t2, m = (t1, Ok a) /\ f a = (t2, Ok b) /\ t = t1 ++ t2.
Proof.
  destruct m as [t1 [a|e]]; [|discriminate].
  rewrite bind_ok. destruct (f a) as [t2 r] eqn:E. simpl.
  intros H. injection H as <- ->. exists t1, a, t2. auto.
Qed.

Lemma result_of_bind_ok (m : io A) (f : A -> io B) (b : B) :
  result_of (bind m f) = Ok b ->
  exists a, result_of m = Ok a /\ result_of (f a) = Ok b.
Proof.
  destruct m as [t1 [a|e]]; [|discriminate].
  rewrite bind_ok. simpl. intros H. exists a. auto.
Qed.

Lemma in_trace_bind (m : io A) (f : A -> io B) (ev : event) :
  In ev (trace_of (bind m f)) ->
  In ev (trace_of m)
  \/ exists a, result_of m = Ok a /\ In ev (trace_of (f a))
               /\ result_of (bind m f) = result_of (f a).
Proof.
  destruct m as [t1 [a|e]].
  - rewrite bind_ok. simpl. intros H.
    apply in_app_or in H as [H|H]; [left; assumption|].
    right. exists a. auto.
  - rewrite bind_raise. simpl. auto.
Qed.

Lemma result_of_bind_raise (m : io A) (f : A -> io B) (e : exn) :
  result_of m = Raise e -> result_of (bind m f) = Raise e.
Proof.
  destruct m as [t1 [a|e']]; simpl; intros H; [discriminate|].
  congruence.
Qed.

End IoFacts.

(** ** The constructor *)

Lemma CollatorFile_init_eq (fs : FS) (path : string) :
  CollatorFile_init fs path =
  match open_rb fs path with
  | Raise e => ([EOpen path], Raise e)
  | Ok content =>
      match eyed3_load fs path with
      | Raise e => ([EOpen path; ELoad path], Raise e)
      | Ok a =>
          ([EOpen path; ELoad path],
           Ok {| fname := path; hash := Sha1.sha1_hex content;
                 audiofile := a |})
      end
  end.
Proof.
  unfold CollatorFile_init, generate_hash.
  destruct (open_rb fs path) as [content|e] eqn:Hopen.
  - rewrite (generate_hash_blocks_ok BLOCKSIZE fs path content)
      by (discriminate || assumption).
    rewrite bind_ok. unfold eyed3load.
    destruct (eyed3_load fs path) as [a|e]; reflexivity.
  - rewrite (generate_hash_blocks_raise BLOCKSIZE fs path e Hopen).
    reflexivity.
Qed.

Lemma is_audio_file_fname (self other : CollatorFile) :
  fname self = fname other -> is_audio_file self = is_audio_file other.
Proof. unfold is_audio_file. intros ->. reflexivity. Qed.

(** ** One entry of a directory *)

Section ScanEntry.
Variable fs : FS.
Variable recurse : string -> io library_t.
Variables path f : string.
Variables (library : list CollatorFile) (unknowns : list string).

Lemma scan_entry_dir :
  isdir fs (entry_path path f) = true ->
  scan_entry fs recurse path (library, unknowns) f =
  match recurse (entry_path path f) with
  | (t, Ok (l, u)) =>
      (EIsdir (entry_path path f) :: t, Ok (library ++ l, unknowns ++ u))
  | (t, Raise e) => (EIsdir (entry_path path f) :: t, Raise e)
  end.
Proof.
  intros Hd. unfold scan_entry, os_path_isdir. fold (entry_path path f).
  rewrite bind_ok, Hd.
  destruct (recurse (entry_path path f)) as [t [[l u]|e]].
  - rewrite bind_ok. simpl. rewrite app_nil_r. reflexivity.
  - reflexivity.
Qed.

Lemma scan_entry_file :
  isdir fs (entry_path path f) = false ->
  isfile fs (entry_path path f) = true ->
  scan_entry fs recurse path (library, unknowns) f =
  match CollatorFile_init fs (entry_path path f) with
  | (t, Ok ncf) =>
      (EIsdir (entry_path path f) :: EIsfile (entry_path path f) :: t,
       Ok (if is_audio_file ncf then (library ++ [ncf], unknowns)
           else (library, unknowns ++ [entry_path path f])))
  | (t, Raise e) =>
      (EIsdir (entry_path path f) :: EIsfile (entry_path path f) :: t,
       Raise e)
  end.
Proof.
  intros Hd Hf. unfold scan_entry, os_path_isdir, os_path_isfile.
  fold (entry_path path f).
  rewrite bind_ok, Hd, bind_ok, Hf.
  destruct (CollatorFile_init fs (entry_path path f)) as [t [ncf|e]].
  - rewrite bind_ok. destruct (is_audio_file ncf); simpl;
      rewrite app_nil_r; reflexivity.
  - reflexivity.
Qed.

Lemma scan_entry_other :
  isdir fs (entry_path path f) = false ->
  isfile fs (entry_path path f) = false ->
  scan_entry fs recurse path (library, unknowns) f =
  ([EIsdir (entry_path path f); EIsfile (entry_path path f)],
   Ok (library, unknowns ++ [entry_path path f])).
Proof.
  intros Hd Hf. unfold scan_entry, os_path_isdir, os_path_isfile.
  fold (entry_path path f).
  rewrite bind_ok, Hd, bind_ok, Hf. reflexivity.
Qed.

End ScanEntry.

(** ** The traversal *)

Lemma build_library_S (fs : FS) (d : nat) (path : string) :
  build_library fs (S d) path =
  (found <- os_listdir fs path ;;
   scan_entries fs (build_library fs d) path found ([], [])).
Proof. reflexivity. Qed.

Lemma scan_entries_cons (fs : FS) (recurse : string -> io library_t)
  (path f : string) (rest : list string) (acc : library_t) :
  scan_entries fs recurse path (f :: rest) acc =
  (acc' <- scan_entry fs recurse path acc f ;;
   scan_entries fs recurse path rest acc').
Proof. reflexivity. Qed.

(** An induction principle for what a traversal returns: a property of
    descriptors and a property of unknown paths that hold where the
    loop body adds them hold for all of the result. *)
Section ResultInvariant.
Variable fs : FS.
Variable Pl : CollatorFile -> Prop.
Variable Pu : string -> Prop.

Hypothesis file_case :
  forall path f content a,
    isdir fs (entry_path path f) = false ->
    isfile fs (entry_path path f) = true ->
    open_rb fs (entry_path path f) = Ok content ->
    eyed3_load fs (entry_path path f) = Ok a ->
    let ncf := {| fname := entry_path path f;
                  hash := Sha1.sha1_hex content; audiofile := a |} in
    (is_audio_file ncf = true -> Pl ncf)
    /\ (is_audio_file ncf = false -> Pu (entry_path path f)).

Hypothesis other_case :
  forall path f,
    isdir fs (entry_path path f) = false ->
    isfile fs (entry_path path f) = false ->
    Pu (entry_path path f).

Lemma scan_entry_invariant (recurse : string -> io library_t)
  (path f : string) (acc acc' : library_t) :
  (forall p r, result_of (recurse p) = Ok r -> holds_on Pl Pu r) ->
  holds_on Pl Pu acc ->
  result_of (scan_entry fs recurse path acc f) = Ok acc' ->
  holds_on Pl Pu acc'.
Proof.
  intros Hrec [Hl Hu]. destruct acc as [library unknowns]. simpl in Hl, Hu.
  destruct (isdir fs (entry_path path f)) eqn:Hd.
  - rewrite scan_entry_dir by assumption.
    specialize (Hrec (entry_path path f)).
    destruct (recurse (entry_path path f)) as [t [[l u]|e]];
      simpl; intros H; [|discriminate].
    injection H as <-. destruct (Hrec _ eq_refl) as [Hl' Hu'].
    split; simpl; apply Forall_app; auto.
  - destruct (isfile fs (entry_path path f)) eqn:Hf.
    + rewrite scan_entry_file by assumption.
      rewrite CollatorFile_init_eq.
      destruct (open_rb fs (entry_path path f)) as [content|e] eqn:Ho;
        [|discriminate].
      destruct (eyed3_load fs (entry_path path f)) as [a|e] eqn:Ha;
        [|discriminate].
      destruct (file_case path f content a Hd Hf Ho Ha) as [Haudio Hnot].
      simpl. intros H. injection H as <-.
      destruct (is_audio_file _) eqn:E; split; simpl; auto;
        apply Forall_app; auto.
    + rewrite scan_entry_other by assumption.
      simpl. intros H. injection H as <-.
      split; simpl; auto. apply Forall_app; auto.
Qed.

Lemma scan_entries_invariant (recurse : string -> io library_t)
  (path : string) (found : list string) (acc acc' : library_t) :
  (forall p r, result_of (recurse p) = Ok r -> holds_on Pl Pu r) ->
  holds_on Pl Pu acc ->
  result_of (scan_entries fs recurse path found acc) = Ok acc' ->
  holds_on Pl Pu acc'.
Proof.
  intros Hrec. revert acc.
  induction found as [|f rest IH]; intros acc Hacc H.
  - simpl in H. injection H as <-. assumption.
  - simpl in H. apply result_of_bind_ok in H as [acc1 [H1 H2]].
    apply (IH acc1); [|assumption].
    eapply scan_entry_invariant; eassumption.
Qed.

Lemma build_library_invariant (depth : nat) (path : string) (r : library_t) :
  result_of (build_library fs depth path) = Ok r -> holds_on Pl Pu r.
Proof.
  revert path r. induction depth as [|d IH]; intros path r H;
    [discriminate|].
  rewrite build_library_S in H.
  apply result_of_bind_ok in H as [found [_ H]].
  eapply scan_entries_invariant; [exact IH | | exact H].
  split; constructor.
Qed.

End ResultInvariant.

(** ** Every listed entry is scanned *)

Section Justified.
Variable fs : FS.

Lemma justified_below (root q : string) (ev : event) :
  isdir fs q = true -> justified fs q ev -> justified fs root ev.
Proof.
  intros Hq. destruct ev; simpl; try tauto.
  intros [->|H]; right; assumption.
Qed.

Lemma justified_scan_entry (recurse : string -> io library_t)
  (root path : string) (acc : library_t) (f : string) :
  (forall q ev, In ev (trace_of (recurse q)) -> justified fs q ev) ->
  forall ev, In ev (trace_of (scan_entry fs recurse path acc f)) ->
             justified fs root ev.
Proof.
  intros Hrec ev. destruct acc as [library unknowns].
  destruct (isdir fs (entry_path path f)) eqn:Hd.
  - rewrite scan_entry_dir by assumption.
    specialize (Hrec (entry_path path f) ev).
    destruct (recurse (entry_path path f)) as [t [[l u]|e]]; simpl in *;
      (intros [<-|Hin]; [exact I|]);
      apply (justified_below root (entry_path path f)); auto.
  - destruct (isfile fs (entry_path path f)) eqn:Hf.
    + rewrite scan_entry_file by assumption.
      rewrite CollatorFile_init_eq.
      destruct (open_rb fs (entry_path path f)) as [content|e];
        [destruct (eyed3_load fs (entry_path path f)) as [a|e]|]; simpl;
        intros H; repeat (destruct H as [<-|H]); simpl; auto;
        destruct H.
    + rewrite scan_entry_other by assumption. simpl.
      intros [<-|[<-|[]]]; simpl; auto.
Qed.

Lemma justified_scan_entries (recurse : string -> io library_t)
  (root path : string) (found : list string) (acc : library_t) :
  (forall q ev, In ev (trace_of (recurse q)) -> justified fs q ev) ->
  forall ev, In ev (trace_of (scan_entries fs recurse path found acc)) ->
             justified fs root ev.
Proof.
  intros Hrec. revert acc.
  induction found as [|f rest IH]; intros acc ev Hin; [destruct Hin|].
  rewrite scan_entries_cons in Hin.
  apply in_trace_bind in Hin as [Hin|[acc' [_ [Hin _]]]].
  - eapply justified_scan_entry; eassumption.
  - eapply IH; eassumption.
Qed.

Lemma justified_build_library (depth : nat) :
  forall path ev,
    In ev (trace_of (build_library fs depth path)) -> justified fs path ev.
Proof.
  induction depth as [|d IH]; intros path ev Hin; [destruct Hin|].
  rewrite build_library_S in Hin.
  apply in_trace_bind in Hin as [[<-|[]]|[found [_ [Hin _]]]].
  - left. reflexivity.
  - eapply justified_scan_entries; [exact IH | exact Hin].
Qed.

End Justified.

Section Scanned.
Variable fs : FS.

Lemma handled_mono (t t' : list event) (l l' : list CollatorFile)
  (u u' : list string) (ev : event) :
  incl t t' -> incl l l' -> incl u u' ->
  handled fs t l u ev -> handled fs t' l' u' ev.
Proof.
  intros Ht Hl Hu. destruct ev as [q|p|p|p|p]; simpl; try tauto.
  - intros H found f Hfound Hin. apply Ht. eapply H; eassumption.
  - destruct (isdir fs p); intros H; apply Ht, H.
  - destruct (isfile fs p); [|intros H; apply Hu, H].
    intros [content [a [Ho [Ha [H1 [H2 H3]]]]]].
    exists content, a. repeat split; auto.
    destruct (is_audio_file _); auto.
Qed.

Lemma scan_entry_scanned (recurse : string -> io library_t)
  (path f : string) (lib0 : list CollatorFile) (unk0 : list string)
  (t : list event) (lib : list CollatorFile) (unk : list string) :
  (forall q t' l u, recurse q = (t', Ok (l, u)) ->
                    scanned fs t' l u /\ In (EListdir q) t') ->
  scan_entry fs recurse path (lib0, unk0) f = (t, Ok (lib, unk)) ->
  scanned fs t lib unk /\ incl lib0 lib /\ incl unk0 unk
  /\ In (EIsdir (entry_path path f)) t.
Proof.
  intros Hrec. destruct (isdir fs (entry_path path f)) eqn:Hd.
  - rewrite scan_entry_dir by assumption.
    destruct (recurse (entry_path path f)) as [t' [[l u]|e]] eqn:E;
      intros H; [|discriminate].
    injection H as <- <- <-.
    destruct (Hrec _ _ _ _ E) as [Hs Hl].
    split; [|split; [|split]].
    + intros ev [<-|Hin].
      * simpl. rewrite Hd. right. exact Hl.
      * apply (handled_mono t' _ l _ u _ ev);
          [apply incl_tl, incl_refl | apply incl_appr, incl_refl
          | apply incl_appr, incl_refl | apply Hs, Hin].
    + apply incl_appl, incl_refl.
    + apply incl_appl, incl_refl.
    + left. reflexivity.
  - destruct (isfile fs (entry_path path f)) eqn:Hf.
    + rewrite scan_entry_file by assumption.
      rewrite CollatorFile_init_eq.
      destruct (open_rb fs (entry_path path f)) as [content|e] eqn:Ho;
        [|discriminate].
      destruct (eyed3_load fs (entry_path path f)) as [a|e] eqn:Ha;
        [|discriminate].
      intros H. injection H as <- H.
      assert (Hplaced :
        let ncf := {| fname := entry_path path f;
                      hash := Sha1.sha1_hex content; audiofile := a |} in
        if is_audio_file ncf then In ncf lib else In (entry_path path f) unk).
      { simpl. destruct (is_audio_file _); injection H as <- <-;
          apply in_or_app; right; left; reflexivity. }
      split; [|split; [|split]].
      * intros ev Hin. simpl in Hin.
        destruct Hin as [<-|[<-|[<-|[<-|[]]]]]; simpl; auto.
        -- rewrite Hd. right. left. reflexivity.
        -- rewrite Hf. exists content, a. repeat split; auto.
      * destruct (is_audio_file _); injection H as <- <-;
          [apply incl_appl|]; apply incl_refl.
      * destruct (is_audio_file _); injection H as <- <-;
          [|apply incl_appl]; apply incl_refl.
      * left. reflexivity.
    + rewrite scan_entry_other by assumption.
      intros H. injection H as <- <- <-. split; [|split; [|split]].
      * intros ev Hin. simpl in Hin.
        destruct Hin as [<-|[<-|[]]]; simpl.
        -- rewrite Hd. right. left. reflexivity.
        -- rewrite Hf. apply in_or_app. right. left. reflexivity.
      * apply incl_refl.
      * apply incl_appl, incl_refl.
      * left. reflexivity.
Qed.

Lemma scan_entries_scanned (recurse : string -> io library_t)
  (path : string) (found : list string) :
  (forall q t' l u, recurse q = (t', Ok (l, u)) ->
                    scanned fs t' l u /\ In (EListdir q) t') ->
  forall lib0 unk0 t lib unk,
    scan_entries fs recurse path found (lib0, unk0) = (t, Ok (lib, unk)) ->
    scanned fs t lib unk /\ incl lib0 lib /\ incl unk0 unk
    /\ forall f, In f found -> In (EIsdir (entry_path path f)) t.
Proof.
  intros Hrec. induction found as [|f rest IH];
    intros lib0 unk0 t lib unk H.
  - injection H as <- <- <-.
    split; [intros ev [] | split; [apply incl_refl | split]].
    + apply incl_refl.
    + intros f [].
  - rewrite scan_entries_cons in H.
    apply bind_ok_inv in H as [t1 [[l1 u1] [t2 [H1 [H2 ->]]]]].
    apply (scan_entry_scanned recurse) in H1 as [Hs1 [Hl1 [Hu1 Hin1]]];
      [|exact Hrec].
    apply IH in H2 as [Hs2 [Hl2 [Hu2 Hin2]]].
    split; [|split; [|split]].
    + intros ev Hin. apply in_app_or in Hin as [Hin|Hin].
      * apply (handled_mono t1 _ l1 _ u1 _ ev);
          [apply incl_appl, incl_refl | exact Hl2 | exact Hu2
          | apply Hs1, Hin].
      * apply (handled_mono t2 _ lib _ unk _ ev);
          [apply incl_appr, incl_refl | apply incl_refl | apply incl_refl
          | apply Hs2, Hin].
    + eapply incl_tran; eassumption.
    + eapply incl_tran; eassumption.
    + intros f' [<-|Hf']; apply in_or_app; [left; exact Hin1|].
      right. apply Hin2, Hf'.
Qed.

Lemma build_library_scanned (depth : nat) :
  forall path t lib unk,
    build_library fs depth path = (t, Ok (lib, unk)) ->
    scanned fs t lib unk /\ In (EListdir path) t.
Proof.
  induction depth as [|d IH]; intros path t lib unk H; [discriminate|].
  rewrite build_library_S in H.
  apply bind_ok_inv in H as [t1 [found [t2 [H1 [H2 ->]]]]].
  unfold os_listdir in H1. injection H1 as <- Hfound.
  apply (scan_entries_scanned (build_library fs d)) in H2
    as [Hs [_ [_ Hin]]]; [|exact IH].
  split; [|left; reflexivity].
  intros ev [<-|Hev].
  - intros found' f Hfound' Hf. right.
    rewrite Hfound in Hfound'. injection Hfound' as <-.
    apply Hin, Hf.
  - apply (handled_mono t2 _ lib _ unk _ ev);
      [apply incl_tl, incl_refl | apply incl_refl | apply incl_refl
      | apply Hs, Hev].
Qed.

End Scanned.

(** C5: an entry that is a regular file gets a descriptor (the file is
    opened, hashed and loaded); the descriptor joins the audio
    collection when [is_audio_file] holds, otherwise the path joins the
    unknown collection.  An entry that is neither a directory nor a
    regular file has its path added to the unknown collection after the
    two tests alone: nothing is opened, nothing is raised.  So every
    descriptor a traversal returns is an audio regular file with its
    hash, and every unknown path is a non-directory that is not a
    regular file or not an audio name.  And a traversal that returns
    has scanned every entry of every directory it listed, its root
    first: each entry of the listing was tested, and each one found not
    to be a directory is in the returned collections as said above, a
    regular file after being opened and loaded, any other entry without
    any open or load call on its path. *)
Theorem build_library_classifies_entries (fs : FS) :
  (forall recurse path f library unknowns,
      let fpath := entry_path path f in
      isdir fs fpath = false ->
      (isfile fs fpath = true ->
       forall content a,
         open_rb fs fpath = Ok content -> eyed3_load fs fpath = Ok a ->
         let ncf := {| fname := fpath; hash := Sha1.sha1_hex content;
                       audiofile := a |} in
         scan_entry fs recurse path (library, unknowns) f =
         ([EIsdir fpath; EIsfile fpath; EOpen fpath; ELoad fpath],
          Ok (if is_audio_file ncf then (library ++ [ncf], unknowns)
              else (library, unknowns ++ [fpath]))))
      /\ (isfile fs fpath = false ->
          scan_entry fs recurse path (library, unknowns) f =
          ([EIsdir fpath; EIsfile fpath], Ok (library, unknowns ++ [fpath]))))
  /\ (forall depth path lib unk,
         result_of (build_library fs depth path) = Ok (lib, unk) ->
         Forall (audio_entry fs) lib /\ Forall (unknown_entry fs) unk)
  /\ (forall depth path t lib unk,
         build_library fs depth path = (t, Ok (lib, unk)) ->
         In (EListdir path) t /\ scanned fs t lib unk)
  /\ (forall depth path found lib unk f,
         listdir fs path = Ok found ->
         result_of (build_library fs depth path) = Ok (lib, unk) ->
         In f found ->
         let fpath := entry_path path f in
         let t := trace_of (build_library fs depth path) in
         isdir fs fpath = false ->
         (isfile fs fpath = true ->
          exists content a,
            open_rb fs fpath = Ok content /\ eyed3_load fs fpath = Ok a
            /\ In (EOpen fpath) t /\ In (ELoad fpath) t
            /\ (let ncf := {| fname := fpath; hash := Sha1.sha1_hex content;
                              audiofile := a |} in
                if is_audio_file ncf then In ncf lib else In fpath unk))
         /\ (isfile fs fpath = false ->
             In fpath unk /\ ~ In (EOpen fpath) t /\ ~ In (ELoad fpath) t)).
Proof.
  split; [|split; [|split]].
  - intros recurse path f library unknowns fpath Hd. split.
    + intros Hf content a Ho Ha ncf.
      rewrite scan_entry_file by assumption.
      rewrite CollatorFile_init_eq. fold fpath. rewrite Ho, Ha. reflexivity.
    + intros Hf. apply scan_entry_other; assumption.
  - intros depth path lib unk H.
    apply (build_library_invariant fs (audio_entry fs) (unknown_entry fs))
      in H; [exact H | |].
    + intros p f content a Hd Hf Ho Ha ncf. split.
      * intros Haudio. repeat split; try assumption.
        exists content. repeat split; assumption.
      * intros Hnot. split; [assumption|]. right.
        rewrite <- Hnot. apply is_audio_file_fname. reflexivity.
    + intros p f Hd Hf. split; [assumption | left; assumption].
  - intros depth path t lib unk H.
    destruct (build_library_scanned fs depth path t lib unk H) as [Hs Hl].
    split; assumption.
  - intros depth path found lib unk f Hfound H Hf fpath t Hd.
    destruct (build_library fs depth path) as [t' r] eqn:E.
    simpl in H. subst r. subst t. simpl trace_of.
    destruct (build_library_scanned fs depth path t' lib unk E) as [Hs Hl].
    pose proof (Hs _ Hl found f Hfound Hf) as Hisdir.
    pose proof (Hs _ Hisdir) as Hisfile. simpl in Hisfile.
    fold fpath in Hisfile. rewrite Hd in Hisfile.
    pose proof (Hs _ Hisfile) as Hplaced. simpl in Hplaced.
    assert (Hj : forall ev, In ev t' -> justified fs path ev).
    { intros ev Hev. apply (justified_build_library fs depth path).
      rewrite E. exact Hev. }
    split; intros Hfile; rewrite Hfile in Hplaced.
    + exact Hplaced.
    + split; [exact Hplaced|].
      split; intros Hin; apply Hj in Hin; simpl in Hin;
        destruct Hin as [_ Hin]; congruence.
Qed.

Lemma build_library_classifies_entries_witness :
  (scan_entry fs_scenario (build_library fs_scenario 1) "root/sub" ([], [])
     "track1.mp3" =
   ([EIsdir "root/sub/track1.mp3"; EIsfile "root/sub/track1.mp3";
     EOpen "root/sub/track1.mp3"; ELoad "root/sub/track1.mp3"],
    Ok ([{| fname := "root/sub/track1.mp3";
            hash := Sha1.sha1_hex [x61; x62; x63];
            audiofile := track1_tags |}], []))
   /\ scan_entry fs_broken (build_library fs_broken 1) "root" ([], [])
        "dangling" =
      ([EIsdir "root/dangling"; EIsfile "root/dangling"],
       Ok ([], ["root/dangling"])))
  /\ (exists content a,
         open_rb fs_scenario "root/readme.txt" = Ok content
         /\ eyed3_load fs_scenario "root/readme.txt" = Ok a
         /\ In (EOpen "root/readme.txt")
              (trace_of (build_library fs_scenario 2 "root"))
         /\ In (ELoad "root/readme.txt")
              (trace_of (build_library fs_scenario 2 "root"))
         /\ (let ncf := {| fname := "root/readme.txt";
                           hash := Sha1.sha1_hex content; audiofile := a |} in
             if is_audio_file ncf
             then In ncf [scenario_track]
             else In "root/readme.txt" ["root/readme.txt"])).
Proof.
  split; [split|].
  - apply (proj1 (proj1 (build_library_classifies_entries fs_scenario)
                    (build_library fs_scenario 1) "root/sub" "track1.mp3"
                    [] [] eq_refl) eq_refl [x61; x62; x63] track1_tags
             eq_refl eq_refl).
  - apply (proj2 (proj1 (build_library_classifies_entries fs_broken)
                    (build_library fs_broken 1) "root" "dangling"
                    [] [] eq_refl) eq_refl).
  - apply (proj1
             (proj2 (proj2 (proj2
                (build_library_classifies_entries fs_scenario)))
                2 "root" ["sub"; "readme.txt"; "emptydir"]
                [scenario_track] ["root/readme.txt"] "readme.txt"
                eq_refl ltac:(vm_compute; reflexivity)
                ltac:(right; left; reflexivity) eq_refl)).
    reflexivity.
Defined.

Example broken_symlink_scenario :
  build_library (fs_of [("root", NDir ["dangling"])]) 1 "root" =
  ([EListdir "root"; EIsdir "root/dangling"; EIsfile "root/dangling"],
   Ok ([], ["root/dangling"])).
Proof. reflexivity. Qed.

(** ** Aggregation *)

Section Aggregation.
Variable fs : FS.
Variable recurse : string -> io library_t.
Variable path : string.



End Aggregation.



(** The first scenario of the specification: one audio descriptor, one
    unknown path, nothing from the empty directory. *)
Example scenario_result :
  result_of (build_library fs_scenario 2 "root") =
  Ok ([{| fname := "root/sub/track1.mp3";
          hash := "a9993e364706816aba3e25717850c26c9cd0d89d";
          audiofile := track1_tags |}],
      ["root/readme.txt"]).
Proof. vm_compute. reflexivity. Qed.

(** ** Failures *)

Section Abort.
Variable fs : FS.

Lemma aborts_bind {A B} (m : io A) (f : A -> io B) :
  aborts_on_fault fs m ->
  (forall a, result_of m = Ok a -> aborts_on_fault fs (f a)) ->
  aborts_on_fault fs (bind m f).
Proof.
  intros Hm Hf ev e Hin Hfault.
  apply in_trace_bind in Hin as [Hin|[a [Ha [Hin Hres]]]].
  - apply result_of_bind_raise. eapply Hm; eassumption.
  - rewrite Hres. eapply Hf; eassumption.
Qed.

Lemma aborts_init (path : string) :
  aborts_on_fault fs (CollatorFile_init fs path).
Proof.
  intros ev e. rewrite CollatorFile_init_eq.
  destruct (open_rb fs path) as [content|e1] eqn:Ho.
  - destruct (eyed3_load fs path) as [a|e2] eqn:Ha; simpl;
      intros [<-|[<-|[]]]; simpl; rewrite ?Ho, ?Ha; congruence.
  - simpl. intros [<-|[]]. simpl. rewrite Ho. congruence.
Qed.

Lemma aborts_scan_entry (recurse : string -> io library_t)
  (path : string) (acc : library_t) (f : string) :
  (forall p, aborts_on_fault fs (recurse p)) ->
  aborts_on_fault fs (scan_entry fs recurse path acc f).
Proof.
  intros Hrec ev e. destruct acc as [library unknowns].
  destruct (isdir fs (entry_path path f)) eqn:Hd.
  - rewrite scan_entry_dir by assumption.
    specialize (Hrec (entry_path path f) ev e).
    destruct (recurse (entry_path path f)) as [t [[l u]|e']]; simpl in *;
      (intros [<-|Hin]; [discriminate|]); intros Hfault;
      specialize (Hrec Hin Hfault); congruence.
  - destruct (isfile fs (entry_path path f)) eqn:Hf.
    + rewrite scan_entry_file by assumption.
      pose proof (aborts_init (entry_path path f) ev e) as Hinit.
      destruct (CollatorFile_init fs (entry_path path f))
        as [t [ncf|e']]; simpl in *;
        (intros [<-|[<-|Hin]]; [discriminate..|]); intros Hfault;
        specialize (Hinit Hin Hfault); congruence.
    + rewrite scan_entry_other by assumption. simpl.
      intros [<-|[<-|[]]]; discriminate.
Qed.

Lemma aborts_scan_entries (recurse : string -> io library_t)
  (path : string) (found : list string) (acc : library_t) :
  (forall p, aborts_on_fault fs (recurse p)) ->
  aborts_on_fault fs (scan_entries fs recurse path found acc).
Proof.
  intros Hrec. revert acc. induction found as [|f rest IH]; intros acc.
  - intros ev e [].
  - rewrite scan_entries_cons. apply aborts_bind.
    + apply aborts_scan_entry, Hrec.
    + intros acc' _. apply IH.
Qed.

Lemma aborts_build_library (depth : nat) (path : string) :
  aborts_on_fault fs (build_library fs depth path).
Proof.
  revert path. induction depth as [|d IH]; intros path.
  - intros ev e [].
  - rewrite build_library_S. apply aborts_bind.
    + intros ev e [<-|[]]. simpl.
      destruct (listdir fs path); congruence.
    + intros found _. apply aborts_scan_entries, IH.
Qed.

End Abort.

(** C7, as the code has it: when the construction of a descriptor fails
    during a traversal, because the file cannot be opened or the tag
    reader raises, the traversal ends with that exception and returns
    no collections; the entries after the failing one are not scanned.
    The traversal does not call the positional accessors. *)
Theorem build_library_aborts_on_failed_construction (fs : FS) :
  (forall depth path p e,
      In (EOpen p) (trace_of (build_library fs depth path)) ->
      open_rb fs p = Raise e ->
      result_of (build_library fs depth path) = Raise e)
  /\ (forall depth path p e,
         In (ELoad p) (trace_of (build_library fs depth path)) ->
         eyed3_load fs p = Raise e ->
         result_of (build_library fs depth path) = Raise e)
  /\ (forall recurse path f rest acc e,
         isdir fs (entry_path path f) = false ->
         isfile fs (entry_path path f) = true ->
         result_of (CollatorFile_init fs (entry_path path f)) = Raise e ->
         result_of (scan_entries fs recurse path (f :: rest) acc) = Raise e).
Proof.
  split; [|split].
  - intros depth path p e Hin Ho.
    apply (aborts_build_library fs depth path (EOpen p) e Hin).
    simpl. rewrite Ho. reflexivity.
  - intros depth path p e Hin Ha.
    apply (aborts_build_library fs depth path (ELoad p) e Hin).
    simpl. rewrite Ha. reflexivity.
  - intros recurse path f rest [library unknowns] e Hd Hf Hinit.
    rewrite scan_entries_cons. apply result_of_bind_raise.
    rewrite scan_entry_file by assumption.
    destruct (CollatorFile_init fs (entry_path path f)) as [t [ncf|e']];
      simpl in *; congruence.
Qed.

Lemma build_library_aborts_on_failed_construction_witness :
  result_of (build_library fs_broken 1 "root")
  = Raise (OSError "root/locked.mp3").
Proof.
  apply (proj1 (build_library_aborts_on_failed_construction fs_broken)
           1 "root" "root/locked.mp3" (OSError "root/locked.mp3")).
  - vm_compute. do 5 right. left. reflexivity.
  - reflexivity.
Defined.

(** C7 as the specification words it fails for the positional
    accessors: the traversal of [r], which holds [t.mp3], returns its
    collections although both accessors fail on the descriptor of
    [r/t.mp3], whose path has two segments. *)
Lemma shallow_path_traversal_counterexample :
  let cf := {| fname := "r/t.mp3"; hash := Sha1.sha1_hex [x61; x62; x63];
               audiofile := None |} in
  result_of (build_library fs_abc 1 "r") = Ok ([cf], [])
  /\ path_artist cf = Raise IndexError
  /\ path_album cf = Raise IndexError.
Proof.
  cbv zeta. split; [vm_compute; reflexivity | split; reflexivity].
Qed.

(** ** Separators *)

Lemma entry_path_no_backslash (path f : string) :
  no_backslash (entry_path path f).
Proof. apply replace_removes. discriminate. Qed.

Section CleanTrace.
Variable fs : FS.






End CleanTrace.




(** A directory whose entry name holds a backslash: the traversal tests
    and stores the path with a slash in its place. *)
Example backslash_in_name :
  build_library (fs_of [("music", NDir ["a\b.mp3"])]) 1 "music" =
  ([EListdir "music"; EIsdir "music/a/b.mp3"; EIsfile "music/a/b.mp3"],
   Ok ([], ["music/a/b.mp3"])).
Proof. reflexivity. Qed.

Example direct_and_normalized_accessors :
  let direct := mkfile "C:\lib\music\rock\ARTISTX\ALBUMY\track.mp3" in
  path_artist direct = Raise IndexError
  /\ path_artist (normalized direct) = Ok "ARTISTX"
  /\ path_album (normalized direct) = Ok "ALBUMY".
Proof. repeat split. Qed.

(** * Further properties of the code *)

(** ** Traversal of a finite tree *)

Lemma result_of_bind_eq {A B} (m : io A) (f : A -> io B) (a : A) :
  result_of m = Ok a -> result_of (bind m f) = result_of (f a).
Proof.
  destruct m as [t [a'|e]]; intros H; simpl in H; [|discriminate].
  injection H as ->. rewrite bind_ok. reflexivity.
Qed.

Section TreeTraversal.
Variable fs : FS.

Lemma scan_entry_tree (d : nat) (p name : string) (t : tree)
  (library : list CollatorFile) (unknowns : list string) :
  (forall q es, listdir fs q = Ok (names_of es) ->
                realizes_forest fs q es -> height_forest es < d ->
                result_of (build_library fs d q) = Ok (collate_forest q es)) ->
  realizes fs (entry_path p name) t -> height t <= d ->
  result_of (scan_entry fs (build_library fs d) p (library, unknowns) name) =
  Ok (library ++ fst (collate (entry_path p name) t),
      unknowns ++ snd (collate (entry_path p name) t)).
Proof.
  intros IH Hreal Hh. destruct t as [es|content a|].
  - destruct Hreal as [Hd [Hl Hes]].
    rewrite scan_entry_dir by assumption.
    specialize (IH (entry_path p name) es Hl Hes ltac:(simpl in Hh; lia)).
    change (collate (entry_path p name) (TDir es))
      with (collate_forest (entry_path p name) es).
    destruct (build_library fs d (entry_path p name)) as [tr [[l u]|e]];
      simpl in IH; [|discriminate].
    injection IH as <-. reflexivity.
  - destruct Hreal as [Hd [Hf [Ho Ha]]].
    rewrite scan_entry_file by assumption.
    rewrite CollatorFile_init_eq, Ho, Ha. simpl.
    destruct (is_audio_file _); simpl; rewrite ?app_nil_r; reflexivity.
  - destruct Hreal as [Hd Hf].
    rewrite scan_entry_other by assumption. simpl.
    rewrite app_nil_r. reflexivity.
Qed.

Lemma scan_entries_forest (d : nat) (p : string) (es : forest)
  (library : list CollatorFile) (unknowns : list string) :
  (forall q es', listdir fs q = Ok (names_of es') ->
                 realizes_forest fs q es' -> height_forest es' < d ->
                 result_of (build_library fs d q)
               = Ok (collate_forest q es')) ->
  realizes_forest fs p es -> height_forest es <= d ->
  result_of (scan_entries fs (build_library fs d) p (names_of es)
               (library, unknowns)) =
  Ok (library ++ fst (collate_forest p es),
      unknowns ++ snd (collate_forest p es)).
Proof.
  intros IH. revert library unknowns.
  induction es as [|name t rest IHes]; intros library unknowns Hreal Hh.
  - simpl. rewrite !app_nil_r. reflexivity.
  - destruct Hreal as [Ht Hrest]. simpl in Hh.
    change (names_of (FCons name t rest)) with (name :: names_of rest).
    rewrite scan_entries_cons.
    rewrite (result_of_bind_eq _ _ _
               (scan_entry_tree d p name t library unknowns IH Ht
                  ltac:(lia))).
    rewrite IHes by (assumption || lia).
    simpl. destruct (collate (entry_path p name) t) as [l u].
    destruct (collate_forest p rest) as [l' u']. simpl.
    rewrite !app_assoc. reflexivity.
Qed.

Lemma build_library_forest (depth : nat) :
  forall q es, listdir fs q = Ok (names_of es) ->
               realizes_forest fs q es -> height_forest es < depth ->
               result_of (build_library fs depth q) = Ok (collate_forest q es).
Proof.
  induction depth as [|d IH]; intros q es Hl Hreal Hh; [lia|].
  rewrite build_library_S.
  rewrite (result_of_bind_eq (os_listdir fs q) _ (names_of es) Hl).
  rewrite (scan_entries_forest d q es [] [] IH Hreal ltac:(lia)).
  destruct (collate_forest q es). reflexivity.
Qed.

End TreeTraversal.

(** X1: when the directory [path] and what lies below it form a finite
    tree, and the recursion allowance exceeds the number of nested
    directories, [build_library] returns, and what it returns is the
    depth-first flattening of the tree in listing order. *)
Theorem build_library_of_finite_tree (fs : FS) (depth : nat) (path : string)
  (es : forest) :
  listdir fs path = Ok (names_of es) ->
  realizes_forest fs path es ->
  height_forest es < depth ->
  result_of (build_library fs depth path) = Ok (collate_forest path es).
Proof. apply build_library_forest. Qed.

Lemma build_library_of_finite_tree_witness :
  result_of (build_library fs_scenario 2 "root") =
  Ok (collate_forest "root" scenario_forest).
Proof.
  apply (build_library_of_finite_tree fs_scenario 2 "root" scenario_forest).
  - reflexivity.
  - simpl. repeat split.
  - simpl. lia.
Defined.

(** ** The recursion allowance *)

Section Allowance.
Variable fs : FS.

Lemma scan_entry_same (rec1 rec2 : string -> io library_t)
  (path f : string) (acc : library_t) :
  (forall q, result_of (rec1 q) <> Raise RecursionError -> rec2 q = rec1 q) ->
  result_of (scan_entry fs rec1 path acc f) <> Raise RecursionError ->
  scan_entry fs rec2 path acc f = scan_entry fs rec1 path acc f.
Proof.
  intros Hrec. destruct acc as [library unknowns].
  destruct (isdir fs (entry_path path f)) eqn:Hd.
  - rewrite !scan_entry_dir by assumption. intros Hne.
    rewrite (Hrec (entry_path path f)); [reflexivity|].
    destruct (rec1 (entry_path path f)) as [t [[l u]|e]];
      simpl in *; congruence.
  - destruct (isfile fs (entry_path path f)) eqn:Hf; intros _.
    + rewrite !scan_entry_file by assumption. reflexivity.
    + rewrite !scan_entry_other by assumption. reflexivity.
Qed.

Lemma scan_entries_same (rec1 rec2 : string -> io library_t)
  (path : string) (found : list string) (acc : library_t) :
  (forall q, result_of (rec1 q) <> Raise RecursionError -> rec2 q = rec1 q) ->
  result_of (scan_entries fs rec1 path found acc) <> Raise RecursionError ->
  scan_entries fs rec2 path found acc = scan_entries fs rec1 path found acc.
Proof.
  intros Hrec. revert acc.
  induction found as [|f rest IH]; intros acc Hne; [reflexivity|].
  rewrite !scan_entries_cons in *.
  destruct (result_of (scan_entry fs rec1 path acc f)) as [acc'|e] eqn:E.
  - rewrite (scan_entry_same rec1 rec2) by (assumption || congruence).
    rewrite (result_of_bind_eq _ _ _ E) in Hne.
    destruct (scan_entry fs rec1 path acc f) as [t r]. simpl in E. subst r.
    rewrite !bind_ok. rewrite (IH acc' Hne). reflexivity.
  - rewrite (result_of_bind_raise _ _ _ E) in Hne.
    rewrite (scan_entry_same rec1 rec2) by (assumption || congruence).
    destruct (scan_entry fs rec1 path acc f) as [t r]. simpl in E. subst r.
    reflexivity.
Qed.

Lemma build_library_same (d : nat) :
  forall d' path,
    d <= d' ->
    result_of (build_library fs d path) <> Raise RecursionError ->
    build_library fs d' path = build_library fs d path.
Proof.
  induction d as [|d IH]; intros d' path Hle Hne.
  - exfalso. apply Hne. reflexivity.
  - destruct d' as [|d'']; [lia|].
    rewrite !build_library_S in *. unfold os_listdir in *.
    destruct (listdir fs path) as [found|e]; [|reflexivity].
    rewrite !bind_ok in *. simpl in Hne.
    rewrite (scan_entries_same (build_library fs d) (build_library fs d''));
      [reflexivity | | assumption].
    intros q Hq. apply IH; [lia | assumption].
Qed.

End Allowance.

(** X2: a traversal that does not end in [RecursionError] makes the
    same calls and ends the same way, with the same collections or the
    same exception, under every larger recursion allowance. *)
Theorem build_library_allowance_irrelevant (fs : FS) (d d' : nat)
  (path : string) :
  d <= d' ->
  result_of (build_library fs d path) <> Raise RecursionError ->
  build_library fs d' path = build_library fs d path.
Proof. apply build_library_same. Qed.

Lemma build_library_allowance_irrelevant_witness :
  build_library fs_scenario 1000 "root" = build_library fs_scenario 2 "root".
Proof.
  apply (build_library_allowance_irrelevant fs_scenario 2 1000 "root").
  - lia.
  - vm_compute. discriminate.
Defined.

(** X3: when the first entry of the directory is a directory, whose
    first entry is a directory, and so on without end (a link back to
    an ancestor, for one), the traversal ends in [RecursionError]
    whatever the recursion allowance: it never returns collections. *)
Theorem build_library_endless_descent (fs : FS) (names : nat -> string)
  (path : string) :
  (forall k, exists rest,
        listdir fs (chain names path k) = Ok (names k :: rest)) ->
  (forall k, isdir fs (chain names path (S k)) = true) ->
  forall depth,
    result_of (build_library fs depth path) = Raise RecursionError.
Proof.
  intros Hlist Hdir depth.
  change path with (chain names path 0). generalize 0 as k.
  induction depth as [|d IH]; intros k; [reflexivity|].
  rewrite build_library_S. destruct (Hlist k) as [rest Hl].
  rewrite (result_of_bind_eq (os_listdir fs _) _ _ Hl).
  rewrite scan_entries_cons. apply result_of_bind_raise.
  rewrite scan_entry_dir by apply (Hdir k).
  specialize (IH (S k)). simpl in IH.
  destruct (build_library fs d (entry_path (chain names path k) (names k)))
    as [t [[l u]|e]]; simpl in *; congruence.
Qed.

Lemma build_library_endless_descent_witness :
  result_of (build_library fs_loop 1000 "root") = Raise RecursionError.
Proof.
  apply (build_library_endless_descent fs_loop (fun _ => "loop") "root").
  - intros k. exists []. reflexivity.
  - intros k. reflexivity.
Defined.

(** ** What the traversal calls *)

(** X4: a traversal opens and loads only paths that tested as regular
    files and not as directories, tests for being a file only what is
    not a directory, and lists only its root and what tested as a
    directory. *)
Theorem build_library_calls_are_justified (fs : FS) (depth : nat)
  (path : string) (p : string) :
  let t := trace_of (build_library fs depth path) in
  (In (EOpen p) t \/ In (ELoad p) t ->
   isdir fs p = false /\ isfile fs p = true)
  /\ (In (EIsfile p) t -> isdir fs p = false)
  /\ (In (EListdir p) t -> p = path \/ isdir fs p = true).
Proof.
  intros t. split; [|split].
  - intros [H|H]; apply (justified_build_library fs depth path) in H;
      exact H.
  - intros H. apply (justified_build_library fs depth path) in H. exact H.
  - intros H. apply (justified_build_library fs depth path) in H. exact H.
Qed.

Lemma build_library_calls_are_justified_witness :
  isdir fs_scenario "root/sub/track1.mp3" = false
  /\ isfile fs_scenario "root/sub/track1.mp3" = true.
Proof.
  apply (proj1 (build_library_calls_are_justified fs_scenario 2 "root"
                  "root/sub/track1.mp3")).
  left. vm_compute. do 5 right. left. reflexivity.
Defined.

(** ** Counting *)

Section Counting.
Variable fs : FS.





End Counting.



(** ** Path segments and base names *)

Section Segments.
Import PyStr.

Lemma length_split (sep : ascii) (s : string) :
  List.length (split sep s) = S (count_char sep s).
Proof.
  induction s as [|c s IH]; simpl; [reflexivity|].
  destruct (Ascii.eqb c sep); simpl.
  - rewrite IH. reflexivity.
  - pose proof (split_not_nil sep s) as Hnil.
    destruct (split sep s) as [|seg segs]; [congruence|].
    simpl in *. exact IH.
Qed.

Lemma count_char_contains (c : ascii) (s : string) :
  contains c s = true -> 1 <= count_char c s.
Proof.
  induction s as [|d s IH]; simpl; [discriminate|].
  destruct (Ascii.eqb d c); simpl; [lia | exact IH].
Qed.

Lemma last_cons_cons {A} (x y : A) (l : list A) (d : A) :
  last (x :: y :: l) d = last (y :: l) d.
Proof. reflexivity. Qed.

Lemma basename_last (p : string) :
  OsPath.basename p = last (split slash p) EmptyString.
Proof.
  induction p as [|c p IH]; [reflexivity|].
  change (OsPath.basename (String c p))
    with (if contains slash (String c p) then OsPath.basename p
          else String c p).
  simpl contains. simpl split.
  pose proof (split_not_nil slash p) as Hnil.
  destruct (Ascii.eqb c slash) eqn:Ec; simpl orb.
  - destruct (split slash p) as [|seg segs] eqn:Es; [congruence|].
    rewrite last_cons_cons. exact IH.
  - destruct (contains slash p) eqn:Hc.
    + pose proof (length_split slash p) as Hlen.
      apply count_char_contains in Hc.
      destruct (split slash p) as [|seg [|seg' segs]]; simpl in Hlen;
        try lia.
      rewrite last_cons_cons. rewrite IH, last_cons_cons. reflexivity.
    + rewrite (split_without_sep slash p Hc). reflexivity.
Qed.

Lemma basename_without_slash (s : string) :
  contains slash s = false -> OsPath.basename s = s.
Proof.
  destruct s as [|c s]; [reflexivity|]. intros H.
  change (OsPath.basename (String c s))
    with (if contains slash (String c s) then OsPath.basename s
          else String c s).
  rewrite H. reflexivity.
Qed.

Lemma last_in_Forall {A} (P : A -> Prop) (l : list A) (d : A) :
  l <> [] -> Forall P l -> P (last l d).
Proof.
  induction l as [|x [|y l] IH]; intros Hne Hall; [congruence| |].
  - inversion Hall; assumption.
  - rewrite last_cons_cons. inversion Hall; subst.
    apply IH; [discriminate | assumption].
Qed.

Lemma basename_no_slash (p : string) :
  contains slash (OsPath.basename p) = false.
Proof.
  rewrite basename_last.
  apply (last_in_Forall (fun seg => contains slash seg = false)).
  - apply split_not_nil.
  - apply split_segments_without_sep.
Qed.

End Segments.

(** X6: [path_elements] loses nothing of the path: joining the
    segments with [/] gives the path back; no segment holds a [/], and
    there is one segment more than there are [/] in the path (so there
    is always at least one). *)
Theorem path_elements_round_trip (self : CollatorFile) :
  PyStr.join PyStr.slash (path_elements self) = fname self
  /\ Forall no_slash (path_elements self)
  /\ List.length (path_elements self)
     = S (count_char PyStr.slash (fname self)).
Proof.
  unfold path_elements. split; [|split].
  - apply join_split.
  - apply split_segments_without_sep.
  - apply length_split.
Qed.

(** X7: the name [__str__] prints as the title, the base name of the
    path, is the last of the segments the positional accessors index. *)
Theorem basename_is_last_path_element (self : CollatorFile) :
  OsPath.basename (fname self) = last (path_elements self) EmptyString.
Proof. apply basename_last. Qed.

(** X8: [is_audio_file] looks at the last path segment only: the
    directories of the path, whatever their names, do not matter. *)
Theorem is_audio_file_of_last_segment (self : CollatorFile) :
  is_audio_file self =
  is_audio_file (mkfile (last (path_elements self) EmptyString)).
Proof.
  unfold is_audio_file, path_elements, mkfile. simpl fname.
  rewrite <- basename_last.
  rewrite (basename_without_slash _ (basename_no_slash (fname self))).
  reflexivity.
Qed.

(** ** Printing a descriptor *)

Lemma string_app_assoc (a b c : string) :
  ((a ++ b) ++ c)%string = (a ++ (b ++ c))%string.
Proof. induction a; simpl; congruence. Qed.

Lemma tag_values (self : CollatorFile) :
  title_tag self = Ok (tag_field title self)
  /\ album_tag self = Ok (tag_field album self)
  /\ artist_tag self = Ok (tag_field artist self).
Proof.
  unfold title_tag, album_tag, artist_tag, tag_field.
  destruct (audiofile self) as [[[t|]]|]; simpl; repeat split.
Qed.

Lemma CollatorFile_str_shallow (self : CollatorFile) :
  List.length (path_elements self) < 6 ->
  CollatorFile_str self = Raise IndexError.
Proof.
  intros Hlen. unfold CollatorFile_str, path_artist, path_album.
  destruct (Nat.lt_ge_cases (List.length (path_elements self)) 5) as [H5|H5].
  - rewrite (getitem_out_of_range (path_elements self) 4) by lia.
    reflexivity.
  - rewrite (getitem_in_range (path_elements self) 4 EmptyString) by lia.
    rewrite (getitem_out_of_range (path_elements self) 5) by lia.
    reflexivity.
Qed.

Lemma CollatorFile_str_deep (self : CollatorFile) :
  6 <= List.length (path_elements self) ->
  CollatorFile_str self = Ok (rendering self (path_elements self)).
Proof.
  intros Hlen. unfold CollatorFile_str, path_artist, path_album.
  rewrite (getitem_in_range (path_elements self) 4 EmptyString) by lia.
  rewrite (getitem_in_range (path_elements self) 5 EmptyString) by lia.
  destruct (tag_values self) as [-> [-> ->]].
  unfold rbind, rendering. rewrite basename_last. fold (path_elements self).
  f_equal. repeat rewrite string_app_assoc. reflexivity.
Qed.

(** X9: [__str__] raises exactly when the path has fewer than six
    segments, and then it raises [IndexError]; no missing tag makes it
    raise.  Otherwise it returns four lines: the last segment as title
    with the segments at index 4 and 5 as artist and album, then the
    title, album and artist tags, a missing tag printed as [None]. *)
Theorem CollatorFile_str_outcome (self : CollatorFile) :
  (List.length (path_elements self) < 6 ->
   CollatorFile_str self = Raise IndexError)
  /\ (6 <= List.length (path_elements self) ->
      CollatorFile_str self = Ok (rendering self (path_elements self)))
  /\ (forall e, CollatorFile_str self = Raise e ->
                e = IndexError /\ List.length (path_elements self) < 6).
Proof.
  split; [exact (CollatorFile_str_shallow self)|].
  split; [exact (CollatorFile_str_deep self)|].
  intros e He.
  destruct (Nat.lt_ge_cases (List.length (path_elements self)) 6) as [H|H].
  - rewrite (CollatorFile_str_shallow self H) in He.
    injection He as <-. auto.
  - rewrite (CollatorFile_str_deep self H) in He. discriminate.
Qed.

Lemma CollatorFile_str_outcome_witness :
  CollatorFile_str (mkfile "/home/ec2-user/dev.music/t.mp3")
  = Raise IndexError
  /\ CollatorFile_str (mkfile "/home/ec2-user/dev.music/A/B/t.mp3")
     = Ok (rendering (mkfile "/home/ec2-user/dev.music/A/B/t.mp3")
             [""; "home"; "ec2-user"; "dev.music"; "A"; "B"; "t.mp3"]).
Proof.
  split.
  - apply (proj1 (CollatorFile_str_outcome
                    (mkfile "/home/ec2-user/dev.music/t.mp3"))).
    vm_compute. lia.
  - apply (proj1 (proj2 (CollatorFile_str_outcome
                           (mkfile "/home/ec2-user/dev.music/A/B/t.mp3")))).
    vm_compute. lia.
Defined.

(** ** The report *)

Lemma print_library_deep (library : list CollatorFile) :
  Forall deep_enough library ->
  print_library library = (map rendered library, Ok tt).
Proof.
  induction library as [|cf rest IH]; intros Hall; [reflexivity|].
  inversion Hall as [|? ? Hcf Hrest]; subst. simpl.
  rewrite (CollatorFile_str_deep cf Hcf), (IH Hrest). reflexivity.
Qed.

Lemma print_library_stops (pre post : list CollatorFile) (cf : CollatorFile) :
  Forall deep_enough pre ->
  List.length (path_elements cf) < 6 ->
  print_library (pre ++ cf :: post) = (map rendered pre, Raise IndexError).
Proof.
  intros Hpre Hcf. induction pre as [|x pre IH]; simpl.
  - rewrite (CollatorFile_str_shallow cf Hcf). reflexivity.
  - inversion Hpre as [|? ? Hx Hrest]; subst.
    rewrite (CollatorFile_str_deep x Hx), (IH Hrest). reflexivity.
Qed.

(** The descriptors before the first one with fewer than six segments,
    that one, and those after it. *)
Lemma first_shallow (library : list CollatorFile) :
  Forall deep_enough library
  \/ exists pre cf post,
      library = pre ++ cf :: post
      /\ Forall deep_enough pre
      /\ List.length (path_elements cf) < 6.
Proof.
  induction library as [|x rest IH]; [left; constructor|].
  destruct (Nat.lt_ge_cases (List.length (path_elements x)) 6) as [Hx|Hx].
  - right. exists [], x, rest. repeat split; [constructor | assumption].
  - destruct IH as [Hall|[pre [cf [post [-> [Hpre Hcf]]]]]].
    + left. constructor; assumption.
    + right. exists (x :: pre), cf, post.
      repeat split; [constructor; assumption | assumption].
Qed.

Lemma main_of_traversal (fs : FS) (depth : nat) (elapsed : string)
  (lib : list CollatorFile) (unk : list string) :
  result_of (build_library fs depth ROOT) = Ok (lib, unk) ->
  main fs depth elapsed =
  (report_header elapsed lib unk ++ fst (print_library lib),
   snd (print_library lib)).
Proof.
  intros H. unfold main. rewrite H.
  destruct (print_library lib) as [out [[]|e]]; simpl; [|reflexivity].
  destruct unk; reflexivity.
Qed.

(** X10: the script prints nothing when the traversal raises, and ends
    with the exception of the traversal; it ends normally exactly when
    the traversal returns and every audio descriptor has a path of six
    segments or more, and otherwise it ends in [IndexError]. *)
Theorem main_outcome (fs : FS) (depth : nat) (elapsed : string) :
  (forall e, result_of (build_library fs depth ROOT) = Raise e ->
             main fs depth elapsed = ([], Raise e))
  /\ (snd (main fs depth elapsed) = Ok tt <->
      exists lib unk,
        result_of (build_library fs depth ROOT) = Ok (lib, unk)
        /\ Forall deep_enough lib)
  /\ (forall lib unk,
         result_of (build_library fs depth ROOT) = Ok (lib, unk) ->
         ~ Forall deep_enough lib ->
         snd (main fs depth elapsed) = Raise IndexError).
Proof.
  split; [|split].
  - intros e H. unfold main. rewrite H. reflexivity.
  - split.
    + intros Hok.
      destruct (result_of (build_library fs depth ROOT)) as [[lib unk]|e]
        eqn:E.
      * exists lib, unk. split; [reflexivity|].
        rewrite (main_of_traversal fs depth elapsed lib unk E) in Hok.
        simpl in Hok.
        destruct (first_shallow lib)
          as [Hall|[pre [cf [post [-> [Hpre Hcf]]]]]]; [assumption|].
        rewrite (print_library_stops pre post cf Hpre Hcf) in Hok.
        discriminate.
      * unfold main in Hok. rewrite E in Hok. discriminate.
    + intros [lib [unk [E Hall]]].
      rewrite (main_of_traversal fs depth elapsed lib unk E).
      rewrite (print_library_deep lib Hall). reflexivity.
  - intros lib unk E Hnot.
    rewrite (main_of_traversal fs depth elapsed lib unk E).
    destruct (first_shallow lib)
      as [Hall|[pre [cf [post [-> [Hpre Hcf]]]]]]; [contradiction|].
    rewrite (print_library_stops pre post cf Hpre Hcf). reflexivity.
Qed.

Lemma main_outcome_witness :
  main fs_scenario 1000 "0.5" = ([], Raise (OSError ROOT)).
Proof.
  apply (proj1 (main_outcome fs_scenario 1000 "0.5") (OSError ROOT)).
  reflexivity.
Defined.

(** X11: when the traversal returns and every audio descriptor has six
    path segments or more, the script prints the three header lines and
    then the text of each audio descriptor, in the order of the
    collection, and ends normally; the unknown paths are counted in the
    header and never printed. *)
Theorem main_full_report (fs : FS) (depth : nat) (elapsed : string)
  (lib : list CollatorFile) (unk : list string) :
  result_of (build_library fs depth ROOT) = Ok (lib, unk) ->
  Forall deep_enough lib ->
  main fs depth elapsed =
  (report_header elapsed lib unk ++ map rendered lib, Ok tt).
Proof.
  intros E Hall. rewrite (main_of_traversal fs depth elapsed lib unk E).
  rewrite (print_library_deep lib Hall). reflexivity.
Qed.

Lemma main_full_report_witness :
  main fs_deep 4 "0.5" =
  (report_header "0.5" [deep_track]
     ["/home/ec2-user/dev.music/Artist/notes.txt"]
   ++ map rendered [deep_track], Ok tt).
Proof.
  apply (main_full_report fs_deep 4 "0.5" [deep_track]
           ["/home/ec2-user/dev.music/Artist/notes.txt"]).
  - vm_compute. reflexivity.
  - constructor; [vm_compute; lia | constructor].
Defined.

(** X12: when some audio descriptor has fewer than six path segments,
    the script prints the header and the text of the descriptors that
    come before the first such one, then ends in [IndexError]: the
    descriptors after it are not printed. *)
Theorem main_partial_report (fs : FS) (depth : nat) (elapsed : string)
  (pre post : list CollatorFile) (cf : CollatorFile) (unk : list string) :
  result_of (build_library fs depth ROOT) = Ok (pre ++ cf :: post, unk) ->
  Forall deep_enough pre ->
  List.length (path_elements cf) < 6 ->
  main fs depth elapsed =
  (report_header elapsed (pre ++ cf :: post) unk ++ map rendered pre,
   Raise IndexError).
Proof.
  intros E Hpre Hcf.
  rewrite (main_of_traversal fs depth elapsed _ unk E).
  rewrite (print_library_stops pre post cf Hpre Hcf). reflexivity.
Qed.

Lemma main_partial_report_witness :
  main fs_loose 4 "0.5" =
  (report_header "0.5"
     ([deep_track] ++ loose_track "loose.mp3" :: [loose_track "z.mp3"]) []
   ++ map rendered [deep_track], Raise IndexError).
Proof.
  apply (main_partial_report fs_loose 4 "0.5" [deep_track]
           [loose_track "z.mp3"] (loose_track "loose.mp3") []).
  - vm_compute. reflexivity.
  - constructor; [vm_compute; lia | constructor].
  - vm_compute. lia.
Defined.

(** ** One segment per level *)

Section Levels.
Import PyStr.

Lemma split_app_sep_gen (sep : ascii) (a b : string) :
  split sep (a ++ String sep b) = split sep a ++ split sep b.
Proof.
  induction a as [|c a IH]; simpl.
  - rewrite Ascii.eqb_refl. reflexivity.
  - destruct (Ascii.eqb c sep); rewrite IH; [reflexivity|].
    pose proof (split_not_nil sep a) as Hnil.
    destruct (split sep a) as [|seg segs]; [congruence | reflexivity].
Qed.

Lemma endswith_app (c : ascii) (a b : string) :
  b <> EmptyString ->
  endswith_char c (a ++ b) = endswith_char c b.
Proof.
  intros Hb. induction a as [|d a IH]; [reflexivity|].
  simpl append. simpl endswith_char.
  destruct (a ++ b)%string as [|x y] eqn:E.
  - destruct a; simpl in E; [congruence | discriminate].
  - exact IH.
Qed.

Lemma endswith_absent (c : ascii) (s : string) :
  contains c s = false -> endswith_char c s = false.
Proof.
  induction s as [|d s IH]; [reflexivity|].
  simpl contains. intros H. apply orb_false_iff in H as [Hd Hs].
  simpl endswith_char. destruct s; [exact Hd | exact (IH Hs)].
Qed.

Lemma startswith_absent (c : ascii) (s : string) :
  contains c s = false -> startswith_char c s = false.
Proof.
  destruct s as [|d s]; [reflexivity|]. simpl.
  intros H. apply orb_false_iff in H. tauto.
Qed.

Lemma join_plain (path f : string) :
  path <> EmptyString -> endswith_char slash path = false ->
  startswith_char slash f = false ->
  OsPath.join path f = (path ++ String slash f)%string.
Proof.
  intros Hne Hend Hstart. unfold OsPath.join. rewrite Hstart, Hend.
  destruct path; [congruence | reflexivity].
Qed.

Lemma entry_path_plain (path f : string) :
  plain_dir path -> plain_name f ->
  entry_path path f = (path ++ String slash f)%string.
Proof.
  intros [Hne [Hbs Hend]] [Hf [Hsl Hfb]]. unfold entry_path.
  rewrite join_plain; try assumption.
  - apply replace_absent. rewrite contains_app. simpl.
    unfold no_backslash in *. rewrite Hbs, Hfb. reflexivity.
  - apply startswith_absent, Hsl.
Qed.

Lemma entry_path_plain_dir (path f : string) :
  plain_dir path -> plain_name f -> plain_dir (entry_path path f).
Proof.
  intros Hp Hn. rewrite (entry_path_plain path f Hp Hn).
  destruct Hp as [Hne [Hbs Hend]]. destruct Hn as [Hf [Hsl Hfb]].
  repeat split.
  - destruct path; [congruence | discriminate].
  - unfold no_backslash in *. rewrite contains_app. simpl.
    rewrite Hbs, Hfb. reflexivity.
  - rewrite endswith_app by discriminate.
    destruct f as [|c f]; [congruence|].
    change (endswith_char slash (String slash (String c f)))
      with (endswith_char slash (String c f)).
    apply endswith_absent, Hsl.
Qed.

Lemma split_entry_path (path f : string) :
  plain_dir path -> plain_name f ->
  split slash (entry_path path f) = split slash path ++ [f].
Proof.
  intros Hp Hn. rewrite (entry_path_plain path f Hp Hn).
  rewrite split_app_sep_gen.
  destruct Hn as [_ [Hsl _]]. rewrite (split_without_sep slash f Hsl).
  reflexivity.
Qed.

End Levels.

(** X13: for a directory path without backslash and without a slash at
    its end, and an entry name without separator, the path the
    traversal makes for the entry is the directory, a slash and the
    name; it has the segments of the directory and one more, the name;
    and it is again such a directory path. *)
Theorem entry_path_adds_one_segment (path f : string) :
  plain_dir path -> plain_name f ->
  entry_path path f = (path ++ String PyStr.slash f)%string
  /\ path_elements (mkfile (entry_path path f))
     = path_elements (mkfile path) ++ [f]
  /\ plain_dir (entry_path path f).
Proof.
  intros Hp Hn. split; [|split].
  - apply entry_path_plain; assumption.
  - apply split_entry_path; assumption.
  - apply entry_path_plain_dir; assumption.
Qed.

Lemma entry_path_adds_one_segment_witness :
  entry_path ROOT "Artist" = (ROOT ++ String PyStr.slash "Artist")%string
  /\ path_elements (mkfile (entry_path ROOT "Artist"))
     = path_elements (mkfile ROOT) ++ ["Artist"]
  /\ plain_dir (entry_path ROOT "Artist").
Proof.
  apply (entry_path_adds_one_segment ROOT "Artist").
  - repeat split. discriminate.
  - repeat split. discriminate.
Defined.

(** X14: below a root of four segments, as the root of the script is,
    a file directly in the root has its own name as path artist and no
    path album ([IndexError]); a file one directory down has the
    directory as path artist and its own name as path album; a file two
    directories down has the two directories as path artist and path
    album. *)
Theorem accessors_below_root (root a b t : string)
  (direct one two : CollatorFile) :
  plain_dir root -> List.length (PyStr.split PyStr.slash root) = 4 ->
  plain_name a -> plain_name b -> plain_name t ->
  fname direct = entry_path root t ->
  fname one = entry_path (entry_path root a) t ->
  fname two = entry_path (entry_path (entry_path root a) b) t ->
  (path_artist direct = Ok t /\ path_album direct = Raise IndexError)
  /\ (path_artist one = Ok a /\ path_album one = Ok t)
  /\ (path_artist two = Ok a /\ path_album two = Ok b).
Proof.
  intros Hroot Hlen Ha Hb Ht H1 H2 H3.
  pose proof (entry_path_plain_dir root a Hroot Ha) as Hra.
  pose proof (entry_path_plain_dir _ b Hra Hb) as Hrab.
  unfold path_artist, path_album, path_elements.
  rewrite H1, H2, H3.
  rewrite (split_entry_path _ t Hrab Ht), (split_entry_path _ b Hra Hb).
  rewrite (split_entry_path _ t Hra Ht), (split_entry_path _ a Hroot Ha).
  rewrite (split_entry_path _ t Hroot Ht).
  destruct (PyStr.split PyStr.slash root) as [|s0 [|s1 [|s2 [|s3 [|s4 l]]]]];
    simpl in Hlen; try lia.
  repeat split.
Qed.

Lemma accessors_below_root_witness :
  (path_artist (mkfile "/home/ec2-user/dev.music/t.mp3") = Ok "t.mp3"
   /\ path_album (mkfile "/home/ec2-user/dev.music/t.mp3")
      = Raise IndexError)
  /\ (path_artist (mkfile "/home/ec2-user/dev.music/A/t.mp3") = Ok "A"
      /\ path_album (mkfile "/home/ec2-user/dev.music/A/t.mp3")
         = Ok "t.mp3")
  /\ (path_artist (mkfile "/home/ec2-user/dev.music/A/B/t.mp3") = Ok "A"
      /\ path_album (mkfile "/home/ec2-user/dev.music/A/B/t.mp3") = Ok "B").
Proof.
  apply (accessors_below_root ROOT "A" "B" "t.mp3");
    try reflexivity; repeat split; discriminate.
Defined.

(** X15: an audio file directly in the root of the script makes the
    report end in [IndexError]: its path has five segments. *)
Theorem main_fails_on_track_in_root (fs : FS) (depth : nat)
  (elapsed : string) (lib : list CollatorFile) (unk : list string)
  (cf : CollatorFile) (t : string) :
  result_of (build_library fs depth ROOT) = Ok (lib, unk) ->
  In cf lib -> fname cf = entry_path ROOT t -> plain_name t ->
  snd (main fs depth elapsed) = Raise IndexError.
Proof.
  intros E Hin Hf Ht.
  rewrite (main_of_traversal fs depth elapsed lib unk E).
  destruct (first_shallow lib)
    as [Hall|[pre [x [post [-> [Hpre Hx]]]]]].
  - exfalso. rewrite Forall_forall in Hall. specialize (Hall cf Hin).
    unfold deep_enough, path_elements in Hall. rewrite Hf in Hall.
    rewrite split_entry_path in Hall;
      [| repeat split; discriminate | assumption].
    vm_compute in Hall. lia.
  - rewrite (print_library_stops pre post x Hpre Hx). reflexivity.
Qed.

Lemma main_fails_on_track_in_root_witness :
  snd (main fs_loose 4 "0.5") = Raise IndexError.
Proof.
  apply (main_fails_on_track_in_root fs_loose 4 "0.5"
           ([deep_track] ++ loose_track "loose.mp3" :: [loose_track "z.mp3"])
           [] (loose_track "z.mp3") "z.mp3").
  - vm_compute. reflexivity.
  - right. right. left. reflexivity.
  - reflexivity.
  - repeat split; discriminate.
Defined.

(** ** Staying under the root *)

Section UnderRoot.
Import PyStr.
Variable fs : FS.

Hypothesis listed_names :
  forall p names, listdir fs p = Ok names ->
                  Forall (fun f => startswith_char slash f = false) names.

Lemma replace_app (old new : ascii) (a b : string) :
  replace old new (a ++ b) = (replace old new a ++ replace old new b)%string.
Proof.
  induction a as [|c a IH]; simpl; [reflexivity|].
  rewrite IH. reflexivity.
Qed.

Lemma is_prefix_trans (a b c : string) :
  is_prefix a b -> is_prefix b c -> is_prefix a c.
Proof.
  intros [x ->] [y ->]. exists (x ++ y)%string.
  apply string_app_assoc.
Qed.

Lemma entry_path_prefix (path f : string) :
  startswith_char slash f = false ->
  is_prefix (replace backslash slash path) (entry_path path f).
Proof.
  intros Hf. unfold entry_path, OsPath.join. rewrite Hf.
  destruct (String.eqb path EmptyString || endswith_char slash path)%bool;
    rewrite replace_app; eexists; reflexivity.
Qed.

Lemma entry_path_normal (path f : string) :
  replace backslash slash (entry_path path f) = entry_path path f.
Proof. apply replace_absent, entry_path_no_backslash. Qed.

Lemma under_trans (a b : string) (r : library_t) :
  is_prefix a b -> under b r -> under a r.
Proof.
  intros Hab [Hl Hu]. split.
  - eapply Forall_impl; [|exact Hl]. intros cf. apply is_prefix_trans, Hab.
  - eapply Forall_impl; [|exact Hu]. intros u. apply is_prefix_trans, Hab.
Qed.

Lemma under_scan_entry (recurse : string -> io library_t)
  (path f : string) (acc acc' : library_t) :
  (forall q r, result_of (recurse q) = Ok r ->
               under (replace backslash slash q) r) ->
  startswith_char slash f = false ->
  under (replace backslash slash path) acc ->
  result_of (scan_entry fs recurse path acc f) = Ok acc' ->
  under (replace backslash slash path) acc'.
Proof.
  intros Hrec Hf [Hl Hu]. destruct acc as [library unknowns].
  simpl in Hl, Hu.
  pose proof (entry_path_prefix path f Hf) as Hpre.
  destruct (isdir fs (entry_path path f)) eqn:Hd.
  - rewrite scan_entry_dir by assumption.
    specialize (Hrec (entry_path path f)).
    destruct (recurse (entry_path path f)) as [t [[l u]|e]];
      simpl; intros H; [|discriminate].
    injection H as <-. specialize (Hrec _ eq_refl).
    rewrite entry_path_normal in Hrec.
    destruct (under_trans _ _ _ Hpre Hrec) as [Hl' Hu'].
    split; simpl; apply Forall_app; auto.
  - destruct (isfile fs (entry_path path f)) eqn:Hfile.
    + rewrite scan_entry_file by assumption.
      rewrite CollatorFile_init_eq.
      destruct (open_rb fs (entry_path path f)) as [content|e];
        [|discriminate].
      destruct (eyed3_load fs (entry_path path f)) as [a|e];
        [|discriminate].
      simpl. intros H. injection H as <-.
      destruct (is_audio_file _); split; simpl; auto;
        apply Forall_app; auto.
    + rewrite scan_entry_other by assumption.
      simpl. intros H. injection H as <-.
      split; simpl; auto. apply Forall_app; auto.
Qed.

Lemma under_scan_entries (recurse : string -> io library_t)
  (path : string) (found : list string) (acc acc' : library_t) :
  (forall q r, result_of (recurse q) = Ok r ->
               under (replace backslash slash q) r) ->
  Forall (fun f => startswith_char slash f = false) found ->
  under (replace backslash slash path) acc ->
  result_of (scan_entries fs recurse path found acc) = Ok acc' ->
  under (replace backslash slash path) acc'.
Proof.
  intros Hrec. revert acc.
  induction found as [|f rest IH]; intros acc Hnames Hacc H.
  - simpl in H. injection H as <-. assumption.
  - inversion Hnames as [|? ? Hf Hrest]; subst.
    rewrite scan_entries_cons in H.
    apply result_of_bind_ok in H as [acc1 [H1 H2]].
    apply (IH acc1); try assumption.
    eapply under_scan_entry; eassumption.
Qed.

Lemma under_build_library (depth : nat) :
  forall path r,
    result_of (build_library fs depth path) = Ok r ->
    under (replace backslash slash path) r.
Proof.
  induction depth as [|d IH]; intros path r H; [discriminate|].
  rewrite build_library_S in H.
  apply result_of_bind_ok in H as [found [Hfound H]].
  eapply under_scan_entries; [exact IH | | | exact H].
  - apply (listed_names path). exact Hfound.
  - split; constructor.
Qed.

End UnderRoot.

(** X16: when no listed name starts with a slash (names that
    [os.listdir] returns hold none), every path a traversal returns, in
    a descriptor or as unknown, starts with the path it was called on,
    backslashes replaced. *)
Theorem build_library_stays_under_root (fs : FS) (depth : nat)
  (path : string) (lib : list CollatorFile) (unk : list string) :
  (forall p names, listdir fs p = Ok names ->
     Forall (fun f => PyStr.startswith_char PyStr.slash f = false) names) ->
  result_of (build_library fs depth path) = Ok (lib, unk) ->
  let root := PyStr.replace PyStr.backslash PyStr.slash path in
  Forall (fun cf => is_prefix root (fname cf)) lib
  /\ Forall (is_prefix root) unk.
Proof.
  intros Hnames H root.
  exact (under_build_library fs Hnames depth path (lib, unk) H).
Qed.

Lemma build_library_stays_under_root_witness :
  Forall (fun cf => is_prefix "C:/music" (fname cf)) []
  /\ Forall (is_prefix "C:/music") ["C:/music/cover.jpg"].
Proof.
  apply (build_library_stays_under_root
           (fs_of [("C:\music", NDir ["cover.jpg"])]) 1 "C:\music"
           [] ["C:/music/cover.jpg"]).
  - intros p names. unfold fs_of, listdir, lookup.
    destruct (String.eqb "C:\music" p); intros H; [|discriminate H].
    injection H as <-. repeat constructor.
  - reflexivity.
Defined.

(** ** The constructor, case by case *)

(** X17: the constructor hashes the file before it asks for the tags.
    When the file cannot be opened, that exception is raised and the
    tag reader is not called; when the tag reader raises, that
    exception is raised; otherwise the descriptor holds the path as it
    was given, the SHA-1 digest of the whole content and what the tag
    reader returned, whatever the name of the file. *)
Theorem CollatorFile_init_outcomes (fs : FS) (path : string) :
  (forall e,
      open_rb fs path = Raise e ->
      CollatorFile_init fs path = ([EOpen path], Raise e))
  /\ (forall content e,
         open_rb fs path = Ok content -> eyed3_load fs path = Raise e ->
         CollatorFile_init fs path = ([EOpen path; ELoad path], Raise e))
  /\ (forall content a,
         open_rb fs path = Ok content -> eyed3_load fs path = Ok a ->
         CollatorFile_init fs path =
         ([EOpen path; ELoad path],
          Ok {| fname := path; hash := Sha1.sha1_hex content;
                audiofile := a |})).
Proof.
  rewrite CollatorFile_init_eq. split; [|split].
  - intros e ->. reflexivity.
  - intros content e -> ->. reflexivity.
  - intros content a -> ->. reflexivity.
Qed.

Lemma CollatorFile_init_outcomes_witness :
  CollatorFile_init fs_broken "root/locked.mp3"
  = ([EOpen "root/locked.mp3"], Raise (OSError "root/locked.mp3"))
  /\ CollatorFile_init fs_scenario "root/readme.txt"
     = ([EOpen "root/readme.txt"; ELoad "root/readme.txt"],
        Ok {| fname := "root/readme.txt"; hash := Sha1.sha1_hex [];
              audiofile := None |}).
Proof.
  split.
  - apply (proj1 (CollatorFile_init_outcomes fs_broken "root/locked.mp3")).
    reflexivity.
  - apply (proj2 (proj2 (CollatorFile_init_outcomes fs_scenario
                           "root/readme.txt"))); reflexivity.
Defined.

(** ** The form of a digest *)

Section Digest.
Import Sha1.

Lemma hex_word_length (n : nat) (w : Z) (acc : string) :
  String.length (hex_word n w acc) = n + String.length acc.
Proof.
  revert w acc. induction n as [|n IH]; intros w acc; [reflexivity|].
  simpl hex_word. rewrite IH. simpl. lia.
Qed.

Lemma hex_digit_hex (z : Z) : hex_char (hex_digit (Z.land z 15)).
Proof.
  change 15%Z with (Z.ones 4). rewrite Z.land_ones by lia.
  pose proof (Z.mod_pos_bound z (2 ^ 4) ltac:(lia)) as Hb.
  unfold hex_digit.
  assert (Hn : Z.to_nat (z mod 2 ^ 4) < 16) by lia.
  destruct (Z.to_nat (z mod 2 ^ 4)) as [|n]; [vm_compute; tauto|].
  do 15 (destruct n as [|n]; [vm_compute; tauto|]).
  lia.
Qed.

Lemma hex_word_chars (n : nat) (w : Z) (acc : string) :
  Forall hex_char (list_ascii_of_string acc) ->
  Forall hex_char (list_ascii_of_string (hex_word n w acc)).
Proof.
  revert w acc. induction n as [|n IH]; intros w acc Hacc; [exact Hacc|].
  simpl hex_word. apply IH. simpl. constructor; [|exact Hacc].
  apply hex_digit_hex.
Qed.

Lemma hexdigest_form (hs : hasher) :
  String.length (hexdigest hs) = 40
  /\ Forall hex_char (list_ascii_of_string (hexdigest hs)).
Proof.
  unfold hexdigest.
  destruct (fst (absorb _ (chain hs) (pending hs ++ padding hs)))
    as [[[[h0 h1] h2] h3] h4].
  split.
  - rewrite !hex_word_length. reflexivity.
  - repeat apply hex_word_chars. constructor.
Qed.

End Digest.

(** X18: the digest [generate_hash] returns, and so the [hash] of every
    descriptor, is a string of 40 characters, each a digit or a letter
    from [a] to [f]. *)
Theorem generate_hash_is_forty_hex_digits (fs : FS) (path h : string) :
  result_of (generate_hash fs path) = Ok h ->
  String.length h = 40 /\ Forall hex_char (list_ascii_of_string h).
Proof.
  unfold generate_hash. intros H.
  destruct (open_rb fs path) as [content|e] eqn:Ho.
  - rewrite (generate_hash_blocks_ok BLOCKSIZE fs path content) in H
      by (discriminate || assumption).
    injection H as <-. apply hexdigest_form.
  - rewrite (generate_hash_blocks_raise BLOCKSIZE fs path e Ho) in H.
    discriminate.
Qed.

Lemma generate_hash_is_forty_hex_digits_witness :
  String.length "a9993e364706816aba3e25717850c26c9cd0d89d" = 40
  /\ Forall hex_char
       (list_ascii_of_string "a9993e364706816aba3e25717850c26c9cd0d89d").
Proof.
  apply (generate_hash_is_forty_hex_digits fs_abc "r/t.mp3").
  vm_compute. reflexivity.
Defined.
